(** * F-22 data manager: registry, scanner and supervised listener

    A shallow embedding of [tools/f22_data_manager.py]: the SQLite-backed
    [DataRegistry], the [FileSystem] helpers, [DataScanner.scan] and the
    listener supervisor of [F22DataManager], followed by the properties of
    the specification that concern them. *)

From Stdlib Require Import String Ascii List ZArith NArith Bool Arith Lia.
From Stdlib Require Import Permutation Floats.
Import ListNotations.
Open Scope string_scope.
Open Scope list_scope.
Set Warnings "-register-all".

(* ===================================================================== *)
(** * Data types *)
(* ===================================================================== *)

Inductive DataStatus : Type :=
| VALID | STALE | INVALID | MISSING | PROCESSING.

Inductive DataCategory : Type :=
| SOURCE | DERIVED | MODEL | MEASUREMENT | TOUCH_MASK
| EXPORT | OUTPUT | APP | SCHEMA.

(** [DataStatus.value] and [DataCategory.value]. *)
Definition status_value (s : DataStatus) : string :=
  match s with
  | VALID => "valid" | STALE => "stale" | INVALID => "invalid"
  | MISSING => "missing" | PROCESSING => "processing"
  end.

Definition category_value (c : DataCategory) : string :=
  match c with
  | SOURCE => "source" | DERIVED => "derived" | MODEL => "model"
  | MEASUREMENT => "measurement" | TOUCH_MASK => "touch_mask"
  | EXPORT => "export" | OUTPUT => "output" | APP => "app"
  | SCHEMA => "schema"
  end.

(** JSON-compatible values: the open metadata bags and the audit details.
    A column written with [json.dumps] and read with [json.loads] is
    modelled by the value it encodes. *)
Inductive json : Type :=
| JNull
| JBool (b : bool)
| JInt (n : Z)
| JStr (s : string)
| JList (l : list json)
| JDict (d : list (string * json)).

(** [d[k] = v] on a Python dict kept as an association list. *)
Fixpoint dict_set (k : string) (v : json) (d : list (string * json))
  : list (string * json) :=
  match d with
  | [] => [(k, v)]
  | (k', v') :: d' =>
      if String.eqb k' k then (k, v) :: d' else (k', v') :: dict_set k v d'
  end.

Record DataRecord : Type := mkDataRecord {
  uid : string;
  path : string;
  category : DataCategory;
  status : DataStatus;
  size : Z;
  hash_sha256 : string;
  created_at : string;
  modified_at : string;
  version : Z;
  parent_uids : list string;
  child_uids : list string;
  metadata : list (string * json);
  schema_uid : option string
}.

Record TouchZone : Type := mkTouchZone {
  tz_uid : string;
  tz_component_uid : string;
  tz_label : string;
  color_hex : string;
  vertices : list (float * float);
  center_x : float;
  center_y : float;
  area : float;
  tz_metadata : list (string * json)
}.

(* ===================================================================== *)
(** * The SQLite store *)
(* ===================================================================== *)

(** A row of [data_records]; [uid] is the primary key. *)
Record RecordRow : Type := mkRecordRow {
  r_uid : string;
  r_path : string;
  r_category : DataCategory;
  r_status : DataStatus;
  r_size : Z;
  r_hash_sha256 : string;
  r_created_at : string;
  r_modified_at : string;
  r_version : Z;
  r_metadata : list (string * json);
  r_schema_uid : option string
}.

(** A row of [lineage]; the primary key is [(parent_uid, child_uid)]. *)
Record LineageRow : Type := mkLineageRow {
  parent_uid : string;
  child_uid : string;
  relationship : string;
  l_created_at : string
}.

(** A row of [audit_log]; [id] is AUTOINCREMENT. *)
Record AuditRow : Type := mkAuditRow {
  a_id : nat;
  a_timestamp : string;
  a_action : string;
  a_target_uid : option string;
  a_actor : string;
  a_details : list (string * json)
}.

(** The tables the modelled operations touch, each in rowid order. *)
Record Tables : Type := mkTables {
  data_records : list RecordRow;
  lineage : list LineageRow;
  touch_zones : list TouchZone;
  audit_log : list AuditRow
}.

Definition empty_tables : Tables := mkTables [] [] [] [].

Definition set_data_records (f : list RecordRow -> list RecordRow)
  (t : Tables) : Tables :=
  mkTables (f (data_records t)) (lineage t) (touch_zones t) (audit_log t).

Definition set_lineage (f : list LineageRow -> list LineageRow)
  (t : Tables) : Tables :=
  mkTables (data_records t) (f (lineage t)) (touch_zones t) (audit_log t).

Definition set_touch_zones (f : list TouchZone -> list TouchZone)
  (t : Tables) : Tables :=
  mkTables (data_records t) (lineage t) (f (touch_zones t)) (audit_log t).

Definition set_audit_log (f : list AuditRow -> list AuditRow)
  (t : Tables) : Tables :=
  mkTables (data_records t) (lineage t) (touch_zones t) (f (audit_log t)).

(** ** Statements *)

Definition row_of (record : DataRecord) : RecordRow :=
  mkRecordRow (uid record) (path record) (category record) (status record)
    (size record) (hash_sha256 record) (created_at record)
    (modified_at record) (version record) (metadata record)
    (schema_uid record).

(** [INSERT OR REPLACE INTO data_records ...]: a row with the same primary
    key is deleted, the new row gets a fresh rowid. *)
Definition insert_or_replace_record (row : RecordRow)
  (rows : list RecordRow) : list RecordRow :=
  filter (fun r => negb (String.eqb (r_uid r) (r_uid row))) rows ++ [row].

(** [DELETE FROM data_records WHERE uid = ?] *)
Definition delete_record (u : string) (rows : list RecordRow)
  : list RecordRow :=
  filter (fun r => negb (String.eqb (r_uid r) u)) rows.

(** [UPDATE data_records SET status = ? WHERE uid = ?] *)
Definition set_row_status (s : DataStatus) (r : RecordRow) : RecordRow :=
  mkRecordRow (r_uid r) (r_path r) (r_category r) s (r_size r)
    (r_hash_sha256 r) (r_created_at r) (r_modified_at r) (r_version r)
    (r_metadata r) (r_schema_uid r).

Definition update_status (s : DataStatus) (u : string)
  (rows : list RecordRow) : list RecordRow :=
  map (fun r => if String.eqb (r_uid r) u then set_row_status s r else r)
    rows.

(** [DELETE FROM lineage WHERE child_uid = ?] *)
Definition delete_lineage_of_child (u : string) (es : list LineageRow)
  : list LineageRow :=
  filter (fun e => negb (String.eqb (child_uid e) u)) es.

(** [DELETE FROM lineage WHERE parent_uid = ? OR child_uid = ?] *)
Definition delete_lineage_touching (u : string) (es : list LineageRow)
  : list LineageRow :=
  filter (fun e => negb (String.eqb (parent_uid e) u
                         || String.eqb (child_uid e) u)) es.

Definition same_edge (p c : string) (e : LineageRow) : bool :=
  String.eqb (parent_uid e) p && String.eqb (child_uid e) c.

(** [INSERT OR IGNORE INTO lineage (parent_uid, child_uid, created_at)];
    [relationship] takes its default. *)
Definition insert_or_ignore_lineage (p c now : string)
  (es : list LineageRow) : list LineageRow :=
  if existsb (same_edge p c) es then es
  else es ++ [mkLineageRow p c "derived_from" now].

(** [INSERT INTO audit_log (timestamp, action, target_uid, details)] *)
Definition insert_audit (now action : string) (target : option string)
  (details : list (string * json)) (log : list AuditRow) : list AuditRow :=
  log ++ [mkAuditRow (S (length log)) now action target "system" details].

(** [INSERT OR REPLACE INTO touch_zones ...] *)
Definition insert_or_replace_touch_zone (z : TouchZone)
  (zs : list TouchZone) : list TouchZone :=
  filter (fun y => negb (String.eqb (tz_uid y) (tz_uid z))) zs ++ [z].

(** ** Queries *)

(** [SELECT * FROM data_records WHERE uid = ?], [fetchone]. *)
Definition select_record (u : string) (rows : list RecordRow)
  : option RecordRow :=
  find (fun r => String.eqb (r_uid r) u) rows.

(** [SELECT parent_uid FROM lineage WHERE child_uid = ?] *)
Definition select_parents (u : string) (es : list LineageRow)
  : list string :=
  map parent_uid (filter (fun e => String.eqb (child_uid e) u) es).

(** [SELECT child_uid FROM lineage WHERE parent_uid = ?] *)
Definition select_children (u : string) (es : list LineageRow)
  : list string :=
  map child_uid (filter (fun e => String.eqb (parent_uid e) u) es).

(** [SELECT uid FROM data_records WHERE path = ?], [fetchone]. *)
Definition select_uid_by_path (p : string) (rows : list RecordRow)
  : option string :=
  option_map r_uid (find (fun r => String.eqb (r_path r) p) rows).

(* ===================================================================== *)
(** * The process and its environment *)
(* ===================================================================== *)

(** What the process cannot control: the wall clock as rendered by
    [datetime.now(timezone.utc).isoformat()] at its n-th reading, the
    n-th [uuid.uuid4().hex[:12]], which storage writes the engine rejects
    (numbered in issue order), and how deep [_get_descendants] may recurse
    before the interpreter raises [RecursionError]. *)
Record Env : Type := mkEnv {
  isoformat : nat -> string;
  uuid4_hex12 : nat -> string;
  storage_fault : nat -> bool;
  recursion_limit : nat
}.

Record World : Type := mkWorld {
  env : Env;
  db : Tables;
  ticks : nat;
  uuids : nat;
  writes : nat
}.

Definition with_db (t : Tables) (w : World) : World :=
  mkWorld (env w) t (ticks w) (uuids w) (writes w).

Inductive Exn : Type :=
| StorageError
| RecursionError
| OSError.

(** Computations that read and change the world and may raise. What was
    done before an exception stays done. *)
Definition M (A : Type) : Type := World -> (Exn + A) * World.

Definition ret {A} (a : A) : M A := fun w => (inr a, w).

Definition bind {A B} (c : M A) (k : A -> M B) : M B :=
  fun w =>
    match c w with
    | (inl e, w') => (inl e, w')
    | (inr a, w') => k a w'
    end.

Definition raise {A} (e : Exn) : M A := fun w => (inl e, w).

(** [try: body / except Exception: handler] *)
Definition try_except {A} (body : M A) (handler : Exn -> M A) : M A :=
  fun w =>
    match body w with
    | (inl e, w') => handler e w'
    | (inr a, w') => (inr a, w')
    end.

Declare Scope monad_scope.
Delimit Scope monad_scope with monad.
Notation "x <- c1 ;; c2" := (bind c1 (fun x => c2))
  (at level 61, c1 at next level, right associativity) : monad_scope.
Notation "c1 ;; c2" := (bind c1 (fun _ => c2))
  (at level 61, right associativity) : monad_scope.
Open Scope monad_scope.

(** [for x in xs: body(x)] *)
Fixpoint for_each {A} (xs : list A) (body : A -> M unit) : M unit :=
  match xs with
  | [] => ret tt
  | x :: xs' => body x ;; for_each xs' body
  end.

(** [DataRegistry._now] *)
Definition _now : M string :=
  fun w => (inr (isoformat (env w) (ticks w)),
            mkWorld (env w) (db w) (S (ticks w)) (uuids w) (writes w)).

(** [conn.execute] of a statement that writes: the engine may reject it,
    otherwise the statement acts on the tables the connection sees. *)
Definition execute (stmt : Tables -> Tables) : M unit :=
  fun w =>
    let w' := mkWorld (env w) (db w) (ticks w) (uuids w) (S (writes w)) in
    if storage_fault (env w) (writes w) then (inl StorageError, w')
    else (inr tt, with_db (stmt (db w)) w').

(** [conn.commit()] *)
Definition commit : M unit := execute (fun t => t).

(** A read on the connection. *)
Definition query_db {A} (q : Tables -> A) : M A :=
  fun w => (inr (q (db w)), w).

(** [with sqlite3.connect(self.db_path) as conn: body]: leaving the block
    normally commits, leaving it by an exception rolls the open transaction
    back. *)
Definition with_connection {A} (body : M A) : M A :=
  fun w =>
    match body w with
    | (inl e, w') => (inl e, with_db (db w) w')
    | (inr a, w') => (inr a, w')
    end.

(* ===================================================================== *)
(** * DataRegistry *)
(* ===================================================================== *)

(** [DataRegistry.generate_uid] *)
Definition generate_uid (prefix : string) : M string :=
  fun w => (inr (String.append prefix
                   (String.append "_" (uuid4_hex12 (env w) (uuids w)))),
            mkWorld (env w) (db w) (ticks w) (S (uuids w)) (writes w)).

(** [DataRegistry._audit] *)
Definition _audit (action : string) (target_uid : option string)
  (details : list (string * json)) : M unit :=
  with_connection (
    now <- _now ;;
    execute (set_audit_log (insert_audit now action target_uid details)) ;;
    commit).

(** [DataRegistry.register] *)
Definition register (record : DataRecord) : M DataRecord :=
  with_connection (
    execute (set_data_records (insert_or_replace_record (row_of record))) ;;
    execute (set_lineage (delete_lineage_of_child (uid record))) ;;
    for_each (parent_uids record) (fun p =>
      now <- _now ;;
      execute (set_lineage (insert_or_ignore_lineage p (uid record) now))) ;;
    commit) ;;
  _audit "register" (Some (uid record))
    [("path", JStr (path record));
     ("category", JStr (category_value (category record)))] ;;
  ret record.

(** [DataRegistry.get] on the tables a connection sees. *)
Definition get_in (t : Tables) (u : string) : option DataRecord :=
  match select_record u (data_records t) with
  | None => None
  | Some row =>
      let parents := select_parents u (lineage t) in
      let children := select_children u (lineage t) in
      Some (mkDataRecord (r_uid row) (r_path row) (r_category row)
              (r_status row) (r_size row) (r_hash_sha256 row)
              (r_created_at row) (r_modified_at row) (r_version row)
              parents children (r_metadata row) (r_schema_uid row))
  end.

Definition get (u : string) : M (option DataRecord) :=
  query_db (fun t => get_in t u).

(** [DataRegistry.get_by_path] *)
Definition get_by_path_in (t : Tables) (p : string) : option DataRecord :=
  match select_uid_by_path p (data_records t) with
  | Some u => get_in t u
  | None => None
  end.

Definition get_by_path (p : string) : M (option DataRecord) :=
  query_db (fun t => get_by_path_in t p).

(** [DataRegistry.query] with no filter: [SELECT uid FROM data_records
    WHERE 1=1 LIMIT ?], then [get] twice per uid. *)
Definition query_all_in (t : Tables) (limit : nat) : list DataRecord :=
  flat_map (fun u => match get_in t u with
                     | Some r => match get_in t u with
                                 | Some _ => [r]
                                 | None => []
                                 end
                     | None => []
                     end)
    (firstn limit (map r_uid (data_records t))).

Definition query_all (limit : nat) : M (list DataRecord) :=
  query_db (fun t => query_all_in t limit).

(** The [for child in children] loop of [_get_descendants], given what
    the recursive call returns for a child; [None] is an exception
    raised by one of the calls. *)
Fixpoint for_children (below : string -> option (list string))
  (children : list string) : option (list string) :=
  match children with
  | [] => Some []
  | child :: rest =>
      match below child with
      | None => None
      | Some found =>
          match for_children below rest with
          | None => None
          | Some others => Some (child :: found ++ others)
          end
      end
  end.

(** [DataRegistry._get_descendants]: the recursion has no visited set, so
    it is bounded only by the interpreter's recursion depth; [None] is
    [RecursionError]. *)
Fixpoint _get_descendants (depth : nat) (conn : Tables) (u : string)
  : option (list string) :=
  match depth with
  | O => None
  | S depth' =>
      for_children (_get_descendants depth' conn)
        (select_children u (lineage conn))
  end.

(** [DataRegistry.mark_stale] *)
Definition mark_stale (u : string) : M unit :=
  descendants <- with_connection (
    execute (set_data_records (update_status STALE u)) ;;
    descendants <- (fun w =>
      match _get_descendants (recursion_limit (env w)) (db w) u with
      | None => (inl RecursionError, w)
      | Some ds => (inr ds, w)
      end) ;;
    for_each descendants (fun desc_uid =>
      execute (set_data_records (update_status STALE desc_uid))) ;;
    commit ;;
    ret descendants) ;;
  _audit "mark_stale" (Some u)
    [("descendants", JInt (Z.of_nat (length descendants)))].

(** [DataRegistry.delete] *)
Definition delete (u : string) : M unit :=
  with_connection (
    execute (set_lineage (delete_lineage_touching u)) ;;
    execute (set_data_records (delete_record u)) ;;
    commit) ;;
  _audit "delete" (Some u) [].

(** ** Touch zones *)

(** ASCII upper-casing of one character. Color keys are hexadecimal, and
    SQLite's [UPPER] only folds ASCII; [str.upper] is modelled on the same
    range. *)
Definition upper_ascii (c : ascii) : ascii :=
  let n := nat_of_ascii c in
  if (97 <=? n)%nat && (n <=? 122)%nat then ascii_of_nat (n - 32) else c.

(** [s.upper()] and SQL [UPPER(s)] *)
Fixpoint upper (s : string) : string :=
  match s with
  | EmptyString => EmptyString
  | String c s' => String (upper_ascii c) (upper s')
  end.

(** [s.replace(a, "")] and SQL [REPLACE(s, a, '')] for a one-character
    [a]: every occurrence goes. *)
Fixpoint remove_char (a : ascii) (s : string) : string :=
  match s with
  | EmptyString => EmptyString
  | String c s' =>
      if Ascii.eqb c a then remove_char a s'
      else String c (remove_char a s')
  end.

Definition hash_sign : ascii := ascii_of_nat 35.

(** [DataRegistry.add_touch_zone] *)
Definition add_touch_zone (zone : TouchZone) : M unit :=
  with_connection (
    execute (set_touch_zones (insert_or_replace_touch_zone zone)) ;;
    commit).

(** [DataRegistry.get_touch_zone_by_color] *)
Definition get_touch_zone_by_color_in (t : Tables) (color : string)
  : option TouchZone :=
  let color := remove_char hash_sign (upper color) in
  find (fun z =>
          String.eqb (upper (remove_char hash_sign (color_hex z))) color)
    (touch_zones t).

Definition get_touch_zone_by_color (color : string)
  : M (option TouchZone) :=
  query_db (fun t => get_touch_zone_by_color_in t color).

(* ===================================================================== *)
(** * FileSystem *)
(* ===================================================================== *)

Record Config : Type := mkConfig {
  hash_max_mb : Z;
  exclude_folders : list string;
  apps_folder : string;
  sources_folder : string;
  derived_folder : string;
  models_folder : string;
  measurements_folder : string;
  touch_masks_folder : string;
  exports_folder : string;
  outputs_folder : string;
  schemas_folder : string
}.

(** [DEFAULT_CONFIG] *)
Definition DEFAULT_CONFIG : Config :=
  mkConfig 50 ["node_modules"; ".git"; "__pycache__"; "manager/backups"]
    "web" "data/sources" "data/exports" "data/models" "data/measurements"
    "data/touch_masks" "data/exports" "outputs" "schemas".

(** What [root.rglob] yields for one path, as the scanner observes it:
    the root-relative name ([rel_path]), whether it is a directory, the
    [st_size] of [path.stat()] ([None] when [stat] raises), the SHA-256
    hex digest of the bytes ([None] when opening or reading raises), and
    the outcome of [_validate_json_file] on the content. *)
Record FsEntry : Type := mkFsEntry {
  e_rel : string;
  e_is_dir : bool;
  e_st_size : option Z;
  e_sha256 : option string;
  e_validation : DataStatus * list string
}.

(** [FileSystem.hash_file] *)
Definition hash_file (config : Config) (p : FsEntry) : option string :=
  match e_st_size p with
  | None => None
  | Some size =>
      if (size >? hash_max_mb config * 1024 * 1024)%Z then None
      else e_sha256 p
  end.

Definition slash : ascii := ascii_of_nat 47.
Definition backslash : ascii := ascii_of_nat 92.

Fixpoint replace_char (a b : ascii) (s : string) : string :=
  match s with
  | EmptyString => EmptyString
  | String c s' =>
      String (if Ascii.eqb c a then b else c) (replace_char a b s')
  end.

Fixpoint lstrip_char (a : ascii) (s : string) : string :=
  match s with
  | EmptyString => EmptyString
  | String c s' => if Ascii.eqb c a then lstrip_char a s' else s
  end.

Fixpoint rstrip_char (a : ascii) (s : string) : string :=
  match s with
  | EmptyString => EmptyString
  | String c s' =>
      match rstrip_char a s' with
      | EmptyString => if Ascii.eqb c a then EmptyString
                       else String c EmptyString
      | r => String c r
      end
  end.

(** [s.strip("/")] *)
Definition strip_slash (s : string) : string :=
  rstrip_char slash (lstrip_char slash s).

(** [s.startswith(p)] *)
Definition startswith (s p : string) : bool := String.prefix p s.

(** [FileSystem.is_excluded] *)
Definition is_excluded (config : Config) (rel_path : string) : bool :=
  let rel_path := replace_char backslash slash rel_path in
  existsb (fun ex =>
             let ex := strip_slash (replace_char backslash slash ex) in
             String.eqb rel_path ex
             || startswith rel_path (String.append ex "/"))
    (exclude_folders config).

(** [FileSystem.categorize_file] *)
Definition categorize_file (config : Config) (p : FsEntry) : DataCategory :=
  let rel := e_rel p in
  let under folder := startswith rel (String.append folder "/") in
  if under (apps_folder config) then APP
  else if under (sources_folder config) then SOURCE
  else if under (derived_folder config) then DERIVED
  else if under (models_folder config) then MODEL
  else if under (measurements_folder config) then MEASUREMENT
  else if under (touch_masks_folder config) then TOUCH_MASK
  else if under (exports_folder config) then EXPORT
  else if under (outputs_folder config) then OUTPUT
  else if under (schemas_folder config) then SCHEMA
  else SOURCE.

(** [FileSystem.walk_all] over what [self.root.rglob("*")] enumerates. *)
Definition walk_all (config : Config) (root : list FsEntry)
  : list FsEntry :=
  filter (fun p => negb (e_is_dir p)
                   && negb (is_excluded config (e_rel p))) root.

(* ===================================================================== *)
(** * DataScanner *)
(* ===================================================================== *)

Record Stats : Type := mkStats {
  added : nat;
  updated : nat;
  unchanged : nat;
  removed : nat;
  errors : nat
}.

Definition zero_stats : Stats := mkStats 0 0 0 0 0.

Definition incr_added (s : Stats) : Stats :=
  mkStats (S (added s)) (updated s) (unchanged s) (removed s) (errors s).
Definition incr_updated (s : Stats) : Stats :=
  mkStats (added s) (S (updated s)) (unchanged s) (removed s) (errors s).
Definition incr_unchanged (s : Stats) : Stats :=
  mkStats (added s) (updated s) (S (unchanged s)) (removed s) (errors s).
Definition incr_removed (s : Stats) : Stats :=
  mkStats (added s) (updated s) (unchanged s) (S (removed s)) (errors s).
Definition incr_errors (s : Stats) : Stats :=
  mkStats (added s) (updated s) (unchanged s) (removed s) (S (errors s)).

(** A loop that carries the counters along. *)
Fixpoint for_each_acc {A S} (xs : list A) (body : A -> S -> M S) (s : S)
  : M S :=
  match xs with
  | [] => ret s
  | x :: xs' => s' <- body x s ;; for_each_acc xs' body s'
  end.

(** [path.stat()] *)
Definition stat (p : FsEntry) : M Z :=
  match e_st_size p with
  | Some n => ret n
  | None => raise OSError
  end.

(** [hash_val or ""] *)
Definition or_empty (h : option string) : string :=
  match h with
  | Some s => s
  | None => ""
  end.

(** [existing.hash_sha256 != hash_val]: a string never equals [None]. *)
Definition hash_differs (stored : string) (hash_val : option string)
  : bool :=
  match hash_val with
  | Some h => negb (String.eqb stored h)
  | None => true
  end.

(** The [validation] entry written to a record's metadata. *)
Definition validation_entry (st : DataStatus) (messages : list string)
  (checked_at : string) : json :=
  JDict [("status", JStr (status_value st));
         ("messages", JList (map JStr messages));
         ("checked_at", JStr checked_at)].

(** [if validation_messages: record.metadata["validation"] = {...}] *)
Definition note_validation (st : DataStatus) (messages : list string)
  (md : list (string * json)) : M (list (string * json)) :=
  match messages with
  | [] => ret md
  | _ :: _ =>
      checked_at <- _now ;;
      ret (dict_set "validation" (validation_entry st messages checked_at)
             md)
  end.

(** The body of the [for path in files] loop of [DataScanner.scan]. *)
Definition scan_entry (config : Config) (p : FsEntry) (stats : Stats)
  : M Stats :=
  let rel := e_rel p in
  try_except (
    st_size <- stat p ;;
    let hash_val := hash_file config p in
    let file_category := categorize_file config p in
    existing <- get_by_path rel ;;
    let '(validation_status, validation_messages) := e_validation p in
    match existing with
    | Some existing =>
        if hash_differs (hash_sha256 existing) hash_val
           || negb (Z.eqb (size existing) st_size)
        then
          modified <- _now ;;
          md <- note_validation validation_status validation_messages
                  (metadata existing) ;;
          let existing :=
            mkDataRecord (uid existing) (path existing) (category existing)
              validation_status st_size (or_empty hash_val)
              (created_at existing) modified (version existing + 1)%Z
              (parent_uids existing) (child_uids existing) md
              (schema_uid existing) in
          register existing ;;
          for_each (child_uids existing) mark_stale ;;
          ret (incr_updated stats)
        else ret (incr_unchanged stats)
    | None =>
        u <- generate_uid (substring 0 4 (category_value file_category)) ;;
        now <- _now ;;
        md <- note_validation validation_status validation_messages [] ;;
        let record :=
          mkDataRecord u rel file_category validation_status st_size
            (or_empty hash_val) now now 1%Z [] [] md None in
        register record ;;
        ret (incr_added stats)
    end)
  (fun _ => ret (incr_errors stats)).

(** [record.path not in seen_paths] *)
Definition seen (seen_paths : list string) (p : string) : bool :=
  existsb (String.eqb p) seen_paths.

(** The [limit=100000] of the scanner's [registry.query]. *)
Definition scan_query_limit : nat := Z.to_nat 100000.

(** [DataScanner.scan] *)
Definition scan (config : Config) (root : list FsEntry) : M Stats :=
  let files := walk_all config root in
  let seen_paths := map e_rel files in
  stats <- for_each_acc files (scan_entry config) zero_stats ;;
  all_records <- query_all scan_query_limit ;;
  for_each_acc all_records (fun record stats =>
    if seen seen_paths (path record) then ret stats
    else delete (uid record) ;; ret (incr_removed stats)) stats.

(* ===================================================================== *)
(** * The supervised listener *)
(* ===================================================================== *)

Module Supervisor.

(** Where the thread running [supervisor_loop] stands. Between two of
    these points the other threads of the process may run. *)
Inductive Pc : Type :=
| AtLoopHead                (* about to test [while not _stop_event] *)
| Joining (t : nat)         (* inside [t.join(timeout=1.0)] *)
| BackingOff                (* inside [time.sleep(restart_delay)] *)
| Returned.                 (* the loop has ended *)

(** Listeners are numbered in creation order; listener [n] is the
    [ThreadedHTTPServer] object and the thread running its
    [serve_forever]. *)
Record State : Type := mkState {
  _stop_event : bool;
  _server_enabled : bool;
  server : option nat;
  server_thread : option nat;
  alive : list nat;        (* threads still inside [serve_forever] *)
  bound : list nat;        (* listeners whose socket is still open *)
  created : nat;           (* listeners created so far *)
  restart_delay : Z;
  pc : Pc;
  started_by_supervisor : list nat  (* listeners the loop itself bound *)
}.

Definition max_delay : Z := 15.

Definition is_alive (st : State) (t : nat) : bool :=
  existsb (Nat.eqb t) (alive st).

Definition remove (n : nat) (l : list nat) : list nat :=
  filter (fun m => negb (Nat.eqb m n)) l.

(** [F22DataManager._start_server]: binding fails while another listener
    still holds the port; [None] is the exception it re-raises, with
    [server] and [server_thread] reset. *)
Definition _start_server (by_supervisor : bool) (st : State)
  : option State * State :=
  match bound st with
  | [] =>
      let n := created st in
      let st' :=
        mkState (_stop_event st) (_server_enabled st) (Some n) (Some n)
          (n :: alive st) [n] (S n) (restart_delay st) (pc st)
          (if by_supervisor then n :: started_by_supervisor st
           else started_by_supervisor st) in
      (Some st', st')
  | _ :: _ =>
      let st' :=
        mkState (_stop_event st) (_server_enabled st) None None
          (alive st) (bound st) (created st) (restart_delay st) (pc st)
          (started_by_supervisor st) in
      (None, st')
  end.

(** [self.server.shutdown(); self.server.server_close(); self.server = None]
    when [self.server] is set. *)
Definition tear_down (st : State) : State :=
  match server st with
  | None => st
  | Some s =>
      mkState (_stop_event st) (_server_enabled st) None (server_thread st)
        (remove s (alive st)) (remove s (bound st)) (created st)
        (restart_delay st) (pc st) (started_by_supervisor st)
  end.

Definition set_enabled (b : bool) (st : State) : State :=
  mkState (_stop_event st) b (server st) (server_thread st) (alive st)
    (bound st) (created st) (restart_delay st) (pc st)
    (started_by_supervisor st).

Definition set_pc (p : Pc) (st : State) : State :=
  mkState (_stop_event st) (_server_enabled st) (server st)
    (server_thread st) (alive st) (bound st) (created st)
    (restart_delay st) p (started_by_supervisor st).

Definition set_delay (d : Z) (st : State) : State :=
  mkState (_stop_event st) (_server_enabled st) (server st)
    (server_thread st) (alive st) (bound st) (created st) d (pc st)
    (started_by_supervisor st).

(** [F22DataManager.stop_http_server] *)
Definition stop_http_server (st : State) : State :=
  tear_down (set_enabled false st).

(** [F22DataManager.restart_http_server] *)
Definition restart_http_server (st : State) : State :=
  tear_down (set_enabled true st).

(** [F22DataManager.start_http_server] *)
Definition start_http_server (st : State) : State :=
  let st := set_enabled true st in
  match server_thread st with
  | Some t => if is_alive st t then st else snd (_start_server false st)
  | None => snd (_start_server false st)
  end.

(** [F22DataManager.stop]: the whole-process shutdown. *)
Definition stop (st : State) : State :=
  let st := tear_down st in
  mkState true (_server_enabled st) (server st) (server_thread st)
    (alive st) (bound st) (created st) (restart_delay st) (pc st)
    (started_by_supervisor st).

(** One stretch of [supervisor_loop], from one waiting point to the
    next. *)
Definition supervisor_step (st : State) : State :=
  match pc st with
  | AtLoopHead =>
      if _stop_event st then set_pc Returned st
      else if negb (_server_enabled st) then st      (* sleep(0.5) *)
      else match server_thread st with
           | None => st                              (* sleep(0.5) *)
           | Some t => set_pc (Joining t) st
           end
  | Joining t =>
      if _stop_event st then set_pc Returned st
      else if is_alive st t then set_pc AtLoopHead st
      else if negb (_server_enabled st) then set_pc AtLoopHead st
      else
        let replaced :=
          match server_thread st with
          | Some t' => negb (Nat.eqb t' t) && is_alive st t'
          | None => false
          end in
        if replaced then set_pc AtLoopHead (set_delay 1 st)
        else set_pc BackingOff st
  | BackingOff =>
      if _stop_event st then set_pc Returned st
      else
        (* best-effort cleanup: server_close() and server = None *)
        let st :=
          match server st with
          | None => st
          | Some s =>
              mkState (_stop_event st) (_server_enabled st) None
                (server_thread st) (alive st) (remove s (bound st))
                (created st) (restart_delay st) (pc st)
                (started_by_supervisor st)
          end in
        match _start_server true st with
        | (Some _, st') => set_pc AtLoopHead (set_delay 1 st')
        | (None, st') =>
            set_pc AtLoopHead
              (set_delay (Z.min max_delay (restart_delay st' * 2)) st')
        end
  | Returned => st
  end.

(** What can happen next in the process. *)
Inductive Event : Type :=
| SupervisorRuns
| WorkerDies (n : nat)
| CallStop
| CallStart
| CallRestart
| CallShutdown.

Definition step (st : State) (ev : Event) : State :=
  match ev with
  | SupervisorRuns => supervisor_step st
  | WorkerDies n =>
      mkState (_stop_event st) (_server_enabled st) (server st)
        (server_thread st) (remove n (alive st)) (bound st) (created st)
        (restart_delay st) (pc st) (started_by_supervisor st)
  | CallStop => stop_http_server st
  | CallStart => start_http_server st
  | CallRestart => restart_http_server st
  | CallShutdown => stop st
  end.

Definition run (st : State) (evs : list Event) : State :=
  fold_left step evs st.

(** The process right after [_start_server_supervised] has started the
    first listener and launched the loop. *)
Definition initial : State :=
  mkState false true (Some 0) (Some 0) [0] [0] 1 1 AtLoopHead [].

End Supervisor.

(* ===================================================================== *)
(** * More of the registry *)
(* ===================================================================== *)

(** SQL [LIKE] as SQLite evaluates it by default: [%] matches any run of
    characters, [_] any one character, and ASCII letters match without
    regard to case. *)
Definition percent_sign : ascii := ascii_of_nat 37.
Definition underscore : ascii := ascii_of_nat 95.

Fixpoint sql_like (pattern s : string) : bool :=
  match pattern with
  | EmptyString =>
      match s with
      | EmptyString => true
      | String _ _ => false
      end
  | String c pattern' =>
      if Ascii.eqb c percent_sign then
        (fix any_run (s : string) : bool :=
           sql_like pattern' s
           || match s with
              | EmptyString => false
              | String _ s' => any_run s'
              end) s
      else
        match s with
        | EmptyString => false
        | String d s' =>
            (Ascii.eqb c underscore
             || Ascii.eqb (upper_ascii c) (upper_ascii d))
            && sql_like pattern' s'
        end
  end.

(** [category = ?] and [status = ?] compare the stored values. *)
Definition category_eqb (a b : DataCategory) : bool :=
  String.eqb (category_value a) (category_value b).

Definition status_eqb (a b : DataStatus) : bool :=
  String.eqb (status_value a) (status_value b).

(** The [WHERE] clause [DataRegistry.query] builds: a filter that is
    [None], or an empty prefix, adds no condition. *)
Definition query_condition (category : option DataCategory)
  (status : option DataStatus) (path_prefix : option string)
  (r : RecordRow) : bool :=
  match category with
  | Some c => category_eqb (r_category r) c
  | None => true
  end
  && match status with
     | Some s => status_eqb (r_status r) s
     | None => true
     end
  && match path_prefix with
     | Some EmptyString | None => true
     | Some prefix =>
         sql_like (String.append prefix "%") (r_path r)
     end.

(** [LIMIT ?]: a negative limit is no limit. *)
Definition sql_limit {A} (limit : Z) (rows : list A) : list A :=
  if (limit <? 0)%Z then rows else firstn (Z.to_nat limit) rows.

(** [DataRegistry.query] *)
Definition query_in (t : Tables) (category : option DataCategory)
  (status : option DataStatus) (path_prefix : option string) (limit : Z)
  : list DataRecord :=
  flat_map (fun u => match get_in t u with
                     | Some r => match get_in t u with
                                 | Some _ => [r]
                                 | None => []
                                 end
                     | None => []
                     end)
    (sql_limit limit
       (map r_uid
          (filter (query_condition category status path_prefix)
             (data_records t)))).

Definition query (category : option DataCategory)
  (status : option DataStatus) (path_prefix : option string) (limit : Z)
  : M (list DataRecord) :=
  query_db (fun t => query_in t category status path_prefix limit).

(** [DataRegistry.get_stale_derived] *)
Definition get_stale_derived : M (list DataRecord) :=
  query (Some DERIVED) (Some STALE) None 1000.

(** [DataRegistry.get_touch_zones]: an empty component is no filter. *)
Definition get_touch_zones_in (t : Tables) (component_uid : option string)
  : list TouchZone :=
  match component_uid with
  | Some EmptyString | None => touch_zones t
  | Some c =>
      filter (fun z => String.eqb (tz_component_uid z) c) (touch_zones t)
  end.

Definition get_touch_zones (component_uid : option string)
  : M (list TouchZone) :=
  query_db (fun t => get_touch_zones_in t component_uid).

(** ** Build queue *)

(** A row of [build_queue]; [id] is AUTOINCREMENT. *)
Record BuildRow : Type := mkBuildRow {
  b_id : nat;
  b_source_uid : string;
  b_target_path : string;
  b_builder_name : string;
  b_priority : Z;
  b_status : string;
  b_created_at : string;
  b_started_at : option string;
  b_completed_at : option string;
  b_error_message : option string
}.

(** The statement of [DataRegistry.queue_build]; AUTOINCREMENT never
    reuses an id, so [next_id] exceeds every id handed out before. *)
Definition insert_build (next_id : nat) (source_uid target_path
  builder_name : string) (priority : Z) (now : string)
  (rows : list BuildRow) : list BuildRow :=
  rows ++ [mkBuildRow next_id source_uid target_path builder_name priority
             "pending" now None None None].

(** [ORDER BY priority DESC, created_at ASC]; text compares bytewise. *)
Definition build_before (a b : BuildRow) : bool :=
  (b_priority b <? b_priority a)%Z
  || ((b_priority a =? b_priority b)%Z
      && match String.compare (b_created_at a) (b_created_at b) with
         | Gt => false
         | _ => true
         end).

Fixpoint insert_sorted (a : BuildRow) (l : list BuildRow)
  : list BuildRow :=
  match l with
  | [] => [a]
  | b :: l' => if build_before a b then a :: l else b :: insert_sorted a l'
  end.

Definition order_builds (l : list BuildRow) : list BuildRow :=
  fold_right insert_sorted [] l.

(** [DataRegistry.get_pending_builds] *)
Definition get_pending_builds (rows : list BuildRow) : list BuildRow :=
  order_builds (filter (fun b => String.eqb (b_status b) "pending") rows).

(** [DataRegistry.update_build_status] *)
Definition update_build_status (build_id : nat) (status : string)
  (error : option string) (now : string) (rows : list BuildRow)
  : list BuildRow :=
  map (fun b =>
         if Nat.eqb (b_id b) build_id then
           if String.eqb status "running" then
             mkBuildRow (b_id b) (b_source_uid b) (b_target_path b)
               (b_builder_name b) (b_priority b) status (b_created_at b)
               (Some now) (b_completed_at b) (b_error_message b)
           else if String.eqb status "completed"
                   || String.eqb status "failed" then
             mkBuildRow (b_id b) (b_source_uid b) (b_target_path b)
               (b_builder_name b) (b_priority b) status (b_created_at b)
               (b_started_at b) (Some now) error
           else
             mkBuildRow (b_id b) (b_source_uid b) (b_target_path b)
               (b_builder_name b) (b_priority b) status (b_created_at b)
               (b_started_at b) (b_completed_at b) (b_error_message b)
         else b)
    rows.

(* ===================================================================== *)
(** * SystemLogger *)
(* ===================================================================== *)

Inductive LogLevel : Type :=
| DEBUG | INFO | WARNING | ERROR | CRITICAL.

Definition level_eqb (a b : LogLevel) : bool :=
  match a, b with
  | DEBUG, DEBUG | INFO, INFO | WARNING, WARNING | ERROR, ERROR
  | CRITICAL, CRITICAL => true
  | _, _ => false
  end.

Record LogEntry : Type := mkLogEntry {
  log_timestamp : string;
  log_level : LogLevel;
  log_component : string;
  log_message : string;
  log_data : option (list (string * json))
}.

(** [l[start:]] for a Python list and any integer [start]. *)
Definition slice_from {A} (start : Z) (l : list A) : list A :=
  let len := Z.of_nat (length l) in
  let first := if (start <? 0)%Z then Z.max (len + start) 0
               else Z.min start len in
  skipn (Z.to_nat first) l.

(** What [SystemLogger._emit] does to [self.entries]. *)
Definition _emit (entry : LogEntry) (entries : list LogEntry)
  : list LogEntry :=
  let entries := entries ++ [entry] in
  if (10000 <? Z.of_nat (length entries))%Z then slice_from (-5000) entries
  else entries.

(** [SystemLogger.get_recent] *)
Definition get_recent (count : Z) (level : option LogLevel)
  (entries : list LogEntry) : list LogEntry :=
  match level with
  | None => slice_from (- count) entries
  | Some lv =>
      slice_from (- count)
        (filter (fun e => level_eqb (log_level e) lv) entries)
  end.

(* ===================================================================== *)
(** * Health *)
(* ===================================================================== *)

(** The status [_check_health] gives the disk: [shutil.disk_usage] raised
    ([None]) or reported [free] bytes. *)
Definition disk_status (free : option Z) : string :=
  match free with
  | None => "error"
  | Some free =>
      let disk_free := (free / (1024 * 1024))%Z in
      if (disk_free >? 1000)%Z then "healthy"
      else if (disk_free >? 100)%Z then "warning"
      else "critical"
  end.

(** The [overall] of [F22DataManager._check_health], from whether
    [get_stats] returned, what the disk reports and [self.server]. *)
Definition overall_health (database_ok : bool) (free : option Z)
  (server : option nat) : string :=
  let statuses :=
    [ (if database_ok then "healthy" else "error");
      disk_status free;
      (match server with Some _ => "healthy" | None => "error" end) ] in
  if existsb (String.eqb "critical") statuses
     || existsb (String.eqb "error") statuses
  then "critical"
  else if existsb (String.eqb "warning") statuses then "degraded"
  else "healthy".

(* ===================================================================== *)
(** * Notions used to state the properties *)
(* ===================================================================== *)

(** The storage engine accepts every write. *)
Definition NoFaults (e : Env) : Prop :=
  forall n, storage_fault e n = false.

(** The primary key of a lineage row. *)
Definition edge_key (e : LineageRow) : string * string :=
  (parent_uid e, child_uid e).

(** [v] is a descendant of [u]: reachable along one or more
    parent-to-child edges. *)
Inductive reaches (es : list LineageRow) : string -> string -> Prop :=
| reaches_child u v :
    In v (select_children u es) -> reaches es u v
| reaches_below u c v :
    In c (select_children u es) -> reaches es c v -> reaches es u v.

(** The rows after [UPDATE ... SET status = 'stale'] has been issued for
    each uid of [targets]. *)
Definition mem (u : string) (l : list string) : bool :=
  existsb (String.eqb u) l.

Definition marked_stale (targets : list string) (rows : list RecordRow)
  : list RecordRow :=
  map (fun r => if mem (r_uid r) targets then set_row_status STALE r else r)
    rows.

(** Two color keys that are equal up to ASCII letter case and a leading
    [#]. *)
Definition same_letter (c d : ascii) : bool :=
  let a := nat_of_ascii c in
  let b := nat_of_ascii d in
  (a =? b)%nat
  || ((65 <=? a)%nat && (a <=? 90)%nat && (b =? a + 32)%nat)
  || ((65 <=? b)%nat && (b <=? 90)%nat && (a =? b + 32)%nat).

Fixpoint eq_ignoring_case (s1 s2 : string) : bool :=
  match s1, s2 with
  | EmptyString, EmptyString => true
  | String c s1', String d s2' =>
      same_letter c d && eq_ignoring_case s1' s2'
  | _, _ => false
  end.

Definition strip_hash_prefix (s : string) : string :=
  match s with
  | String c s' => if Ascii.eqb c hash_sign then s' else s
  | EmptyString => s
  end.

Definition same_color_key (k1 k2 : string) : Prop :=
  eq_ignoring_case (strip_hash_prefix k1) (strip_hash_prefix k2) = true.

(** The lineage rows after the [for parent_uid in record.parent_uids]
    loop of [register], started when the clock has been read [tick]
    times. *)
Fixpoint insert_parents (e : Env) (tick : nat) (child : string)
  (ps : list string) (es : list LineageRow) : list LineageRow :=
  match ps with
  | [] => es
  | p :: ps' =>
      insert_parents e (S tick) child ps'
        (insert_or_ignore_lineage p child (isoformat e tick) es)
  end.

(** The audit row [register] appends. *)
Definition register_details (record : DataRecord)
  : list (string * json) :=
  [("path", JStr (path record));
   ("category", JStr (category_value (category record)))].

(** The tables after a [register] that met no fault. *)
Definition registered (e : Env) (tick : nat) (record : DataRecord)
  (t : Tables) : Tables :=
  mkTables
    (insert_or_replace_record (row_of record) (data_records t))
    (insert_parents e tick (uid record) (parent_uids record)
       (delete_lineage_of_child (uid record) (lineage t)))
    (touch_zones t)
    (insert_audit (isoformat e (length (parent_uids record) + tick))
       "register" (Some (uid record)) (register_details record)
       (audit_log t)).

(** The tables after a [delete] that met no fault. *)
Definition deleted (e : Env) (tick : nat) (u : string) (t : Tables)
  : Tables :=
  mkTables
    (delete_record u (data_records t))
    (delete_lineage_touching u (lineage t))
    (touch_zones t)
    (insert_audit (isoformat e tick) "delete" (Some u) [] (audit_log t)).

(** The tables after a [mark_stale] that met no fault and found the
    descendants [ds]. *)
Definition staled (e : Env) (tick : nat) (u : string) (ds : list string)
  (t : Tables) : Tables :=
  mkTables
    (marked_stale (u :: ds) (data_records t))
    (lineage t)
    (touch_zones t)
    (insert_audit (isoformat e tick) "mark_stale" (Some u)
       [("descendants", JInt (Z.of_nat (length ds)))] (audit_log t)).

(** The metadata [note_validation] returns and the clock readings it
    leaves behind. *)
Definition noted_validation (e : Env) (tick : nat) (st : DataStatus)
  (messages : list string) (md : list (string * json))
  : list (string * json) * nat :=
  match messages with
  | [] => (md, tick)
  | _ :: _ =>
      (dict_set "validation"
         (validation_entry st messages (isoformat e tick)) md,
       S tick)
  end.

(** The record that [scan] registers for a tracked file that changed. *)
Definition rescanned (config : Config) (e : Env) (tick : nat)
  (p : FsEntry) (st_size : Z) (existing : DataRecord) : DataRecord :=
  mkDataRecord (uid existing) (path existing) (category existing)
    (fst (e_validation p)) st_size (or_empty (hash_file config p))
    (created_at existing) (isoformat e tick) (version existing + 1)%Z
    (parent_uids existing) (child_uids existing)
    (fst (noted_validation e (S tick) (fst (e_validation p))
            (snd (e_validation p)) (metadata existing)))
    (schema_uid existing).


(** A computation leaves the environment as it found it. *)
Definition keeps_env {A} (c : M A) : Prop :=
  forall w, env (snd (c w)) = env w.

(** ** Small stores on which the properties are run *)

(** An environment in which nothing goes wrong. *)
Definition quiet_env : Env :=
  mkEnv (fun _ => "2025-01-01T00:00:00+00:00") (fun _ => "0123456789ab")
    (fun _ => false) 1000.

Definition plain_row (u p : string) : RecordRow :=
  mkRecordRow u p SOURCE VALID 10 "e3b0c442" "t0" "t0" 1 [] None.

Definition edge (p c : string) : LineageRow :=
  mkLineageRow p c "derived_from" "t0".

(** [a -> b -> c], with an unrelated record [z]. *)
Definition chain_tables : Tables :=
  mkTables
    [plain_row "a" "a.json"; plain_row "b" "b.json";
     plain_row "c" "c.json"; plain_row "z" "z.json"]
    [edge "a" "b"; edge "b" "c"] [] [].


(** [a -> b -> a]: a lineage cycle. *)
Definition cyclic_tables : Tables :=
  mkTables [plain_row "a" "a.json"; plain_row "b" "b.json"]
    [edge "a" "b"; edge "b" "a"] [] [].

(** [a -> b -> d] and [a -> c -> d]: no cycle, two paths to [d]. *)
Definition diamond_tables : Tables :=
  mkTables
    [plain_row "a" "a.json"; plain_row "b" "b.json";
     plain_row "c" "c.json"; plain_row "d" "d.json"]
    [edge "a" "b"; edge "a" "c"; edge "b" "d"; edge "c" "d"] [] [].

(** A 60 MiB model, above the default 50 MiB hashing limit, with the
    record a scan has stored for it and one artifact derived from it. *)
Definition big_file : FsEntry :=
  mkFsEntry "data/models/f22.glb" false (Some 62914560%Z)
    (Some "9f86d081884c7d65") (VALID, []).

Definition big_record : DataRecord :=
  mkDataRecord "mode_aaaaaaaaaaaa" "data/models/f22.glb" MODEL VALID
    62914560 "" "t0" "t0" 1 [] ["deri_bbbbbbbbbbbb"] [] None.

Definition big_tables : Tables :=
  mkTables
    [row_of big_record;
     mkRecordRow "deri_bbbbbbbbbbbb" "data/exports/f22.json" DERIVED VALID
       10 "e3b0c442" "t0" "t0" 1 [] None]
    [edge "mode_aaaaaaaaaaaa" "deri_bbbbbbbbbbbb"] [] [].


(** The file behind record [a] of the chain, edited. *)
Definition edited_file : FsEntry :=
  mkFsEntry "a.json" false (Some 12%Z) (Some "2c26b46b") (VALID, []).

Definition chain_record_a : DataRecord :=
  mkDataRecord "a" "a.json" SOURCE VALID 10 "e3b0c442" "t0" "t0" 1
    [] ["b"] [] None.

(** The storage engine rejects write number [n] and no other. *)
Definition fault_at (n : nat) : Env :=
  mkEnv (fun _ => "2025-01-01T00:00:00+00:00") (fun _ => "0123456789ab")
    (Nat.eqb n) 1000.

(** A record derived from [a] and [b] of the chain. *)
Definition derived_record : DataRecord :=
  mkDataRecord "d" "d.json" DERIVED VALID 10 "e3b0c442" "t0" "t1" 1
    ["a"; "b"] [] [] None.

(** The transaction of [register]: the body of its
    [with sqlite3.connect(...) as conn]. *)
Definition register_transaction (record : DataRecord) : M unit :=
  execute (set_data_records (insert_or_replace_record (row_of record))) ;;
  execute (set_lineage (delete_lineage_of_child (uid record))) ;;
  for_each (parent_uids record) (fun p =>
    now <- _now ;;
    execute (set_lineage (insert_or_ignore_lineage p (uid record) now))) ;;
  commit.

(** The worker of the first listener dies while the listener is
    enabled, the supervisor notices and starts its backoff wait, [stop()]
    is called during the wait, and the wait ends. *)
Definition stop_during_backoff : list Supervisor.Event :=
  [Supervisor.SupervisorRuns; Supervisor.WorkerDies 0;
   Supervisor.SupervisorRuns; Supervisor.CallStop;
   Supervisor.SupervisorRuns].

(** Events other than [start()] and [restart()]. *)
Definition not_a_start (ev : Supervisor.Event) : bool :=
  match ev with
  | Supervisor.CallStart | Supervisor.CallRestart => false
  | _ => true
  end.

(** A store with one touch zone, keyed [#AABBCC]. *)
Definition wing_zone : TouchZone :=
  mkTouchZone "zone_1" "wing_left" "Left wing" "#AABBCC"
    [(0%float, 0%float); (1%float, 0%float); (1%float, 1%float)]
    0.5%float 0.5%float 0.5%float [].

Definition zone_tables : Tables := mkTables [] [] [wing_zone] [].

(** ** Invariants of the store *)

(** A statement, and a computation, under which a property of the tables
    persists. *)
Definition stmt_preserves (I : Tables -> Prop) (stmt : Tables -> Tables)
  : Prop :=
  forall t, I t -> I (stmt t).

Definition preserves (I : Tables -> Prop) {A} (c : M A) : Prop :=
  forall w, I (db w) -> I (db (snd (c w))).

(** The statements the registry issues all keep [I]. *)
Definition statements_keep (I : Tables -> Prop) : Prop :=
  (forall row,
      stmt_preserves I (set_data_records (insert_or_replace_record row)))
  /\ (forall u, stmt_preserves I (set_data_records (delete_record u)))
  /\ (forall s u, stmt_preserves I (set_data_records (update_status s u)))
  /\ (forall u, stmt_preserves I (set_lineage (delete_lineage_of_child u)))
  /\ (forall u, stmt_preserves I (set_lineage (delete_lineage_touching u)))
  /\ (forall p c now,
         stmt_preserves I (set_lineage (insert_or_ignore_lineage p c now)))
  /\ (forall now action target details,
         stmt_preserves I
           (set_audit_log (insert_audit now action target details)))
  /\ (forall z,
         stmt_preserves I
           (set_touch_zones (insert_or_replace_touch_zone z))).

(** The primary keys: one row per uid, one edge per (parent, child). *)
Definition unique_keys (t : Tables) : Prop :=
  NoDup (map r_uid (data_records t))
  /\ NoDup (map edge_key (lineage t)).

(** The audit log still begins with [log]. *)
Definition audit_extends (log : list AuditRow) (t : Tables) : Prop :=
  exists more, audit_log t = log ++ more.

(** A prefix with no [LIKE] wildcard in it. *)
Fixpoint wildcard_free (s : string) : bool :=
  match s with
  | EmptyString => true
  | String c s' =>
      negb (Ascii.eqb c percent_sign) && negb (Ascii.eqb c underscore)
      && wildcard_free s'
  end.

(** The normal form under which [get_touch_zone_by_color] compares. *)
Definition color_key (s : string) : string :=
  remove_char hash_sign (upper s).

(** The store of the large model after its artifact went stale. *)
Definition stale_tables : Tables :=
  mkTables
    [row_of big_record;
     mkRecordRow "deri_bbbbbbbbbbbb" "data/exports/f22.json" DERIVED STALE
       10 "e3b0c442" "t0" "t0" 1 [] None]
    [edge "mode_aaaaaaaaaaaa" "deri_bbbbbbbbbbbb"] [] [].

(** [s] has the character [a] somewhere. *)
Fixpoint has_char (a : ascii) (s : string) : bool :=
  match s with
  | EmptyString => false
  | String c s' => Ascii.eqb c a || has_char a s'
  end.

(** The files a scan has counted: every counter but [removed]. *)
Definition files_counted (s : Stats) : nat :=
  added s + updated s + unchanged s + errors s.

(** A tracked file whose record has an earlier validation failure in its
    metadata. *)
Definition was_invalid_tables : Tables :=
  mkTables
    [mkRecordRow "sour_cccccccccccc" "data/sources/master_parts_v2.json"
       SOURCE INVALID 10 "e3b0c442" "t0" "t0" 1
       [("validation",
         JDict [("status", JStr "invalid");
                ("messages", JList [JStr "Missing key: parts"]);
                ("checked_at", JStr "t0")])] None]
    [] [] [].

Definition was_invalid_record : DataRecord :=
  mkDataRecord "sour_cccccccccccc" "data/sources/master_parts_v2.json"
    SOURCE INVALID 10 "e3b0c442" "t0" "t0" 1 [] []
    [("validation",
      JDict [("status", JStr "invalid");
             ("messages", JList [JStr "Missing key: parts"]);
             ("checked_at", JStr "t0")])] None.

Definition repaired_file : FsEntry :=
  mkFsEntry "data/sources/master_parts_v2.json" false (Some 42%Z)
    (Some "2c26b46b") (VALID, []).

(** A record whose two children sit on a lineage cycle. *)
Definition cyclic_children_tables : Tables :=
  mkTables
    [plain_row "a" "a.json"; plain_row "b" "b.json";
     plain_row "c" "c.json"]
    [edge "a" "b"; edge "b" "c"; edge "c" "b"; edge "a" "c"] [] [].

Definition cyclic_children_record : DataRecord :=
  mkDataRecord "a" "a.json" SOURCE VALID 10 "e3b0c442" "t0" "t0" 1
    [] ["b"; "c"] [] None.

(** Every result that [c] returns satisfies [P]. *)
Definition returns_only {A} (P : A -> Prop) (c : M A) : Prop :=
  forall w a w', c w = (inr a, w') -> P a.

(** The supervisor stands at the head of its loop and watches listener
    [t], the one that holds the port. *)
Definition watching (t : nat) (st : Supervisor.State) : Prop :=
  Supervisor._stop_event st = false
  /\ Supervisor._server_enabled st = true
  /\ Supervisor.server st = Some t
  /\ Supervisor.server_thread st = Some t
  /\ Supervisor.bound st = [t]
  /\ Supervisor.pc st = Supervisor.AtLoopHead.

(** The worker of listener [t] dies, and the supervisor runs until it is
    back at the head of its loop. *)
Definition worker_crash (t : nat) : list Supervisor.Event :=
  [Supervisor.WorkerDies t; Supervisor.SupervisorRuns;
   Supervisor.SupervisorRuns; Supervisor.SupervisorRuns].

(** The delay lies within the bounds of [supervisor_loop]. *)
Definition delay_in_range (st : Supervisor.State) : Prop :=
  (1 <= Supervisor.restart_delay st <= Supervisor.max_delay)%Z.

(** [status = 'pending'] *)
Definition is_pending (b : BuildRow) : bool :=
  String.eqb (b_status b) "pending".

(** [a] comes no later than [b] in the order of [get_pending_builds]. *)
Definition queue_order (a b : BuildRow) : Prop := build_before a b = true.

(** The entries [get_recent] selects from. *)
Definition of_level (level : option LogLevel) (entries : list LogEntry)
  : list LogEntry :=
  match level with
  | None => entries
  | Some lv => filter (fun e => level_eqb (log_level e) lv) entries
  end.

Definition sample_entry : LogEntry :=
  mkLogEntry "2025-01-01T00:00:00+00:00" INFO "Server" "started" None.

Definition sample_error : LogEntry :=
  mkLogEntry "2025-01-01T00:00:01+00:00" ERROR "Server" "failed" None.

(** A full buffer. *)
Definition full_buffer : list LogEntry :=
  repeat sample_entry (Z.to_nat 10000).

Definition sample_build (id : nat) (priority : Z) (st created : string)
  : BuildRow :=
  mkBuildRow id "sour_cccccccccccc" "data/exports/out.json" "parts" priority
    st created None None None.

Definition sample_queue : list BuildRow :=
  [sample_build 1 0 "pending" "2025-01-02";
   sample_build 2 5 "running" "2025-01-01";
   sample_build 3 5 "pending" "2025-01-03";
   sample_build 4 5 "pending" "2025-01-01"].

(* ===================================================================== *)
(** * Properties *)
(* ===================================================================== *)

(** ** Touch-zone color lookup *)

Lemma upper_ascii_hash : upper_ascii hash_sign = hash_sign.
Proof. reflexivity. Qed.

Lemma same_letter_upper c d :
  same_letter c d = true -> upper_ascii c = upper_ascii d.
Proof.
  unfold same_letter, upper_ascii.
  intros H.
  apply orb_true_iff in H as [H | H];
    [apply orb_true_iff in H as [H | H] |].
  - apply Nat.eqb_eq in H.
    assert (c = d) as ->; [| reflexivity].
    rewrite <- (ascii_nat_embedding c), <- (ascii_nat_embedding d).
    now rewrite H.
  - apply andb_true_iff in H as [H Hb].
    apply andb_true_iff in H as [Hlo Hhi].
    apply Nat.eqb_eq in Hb. apply Nat.leb_le in Hlo, Hhi.
    rewrite Hb.
    replace (97 <=? nat_of_ascii c)%nat with false
      by (symmetry; apply Nat.leb_gt; lia).
    replace (97 <=? nat_of_ascii c + 32)%nat with true
      by (symmetry; apply Nat.leb_le; lia).
    replace (nat_of_ascii c + 32 <=? 122)%nat with true
      by (symmetry; apply Nat.leb_le; lia).
    cbn [andb].
    replace (nat_of_ascii c + 32 - 32)%nat with (nat_of_ascii c) by lia.
    now rewrite ascii_nat_embedding.
  - apply andb_true_iff in H as [H Hb].
    apply andb_true_iff in H as [Hlo Hhi].
    apply Nat.eqb_eq in Hb. apply Nat.leb_le in Hlo, Hhi.
    rewrite Hb.
    replace (97 <=? nat_of_ascii d)%nat with false
      by (symmetry; apply Nat.leb_gt; lia).
    replace (97 <=? nat_of_ascii d + 32)%nat with true
      by (symmetry; apply Nat.leb_le; lia).
    replace (nat_of_ascii d + 32 <=? 122)%nat with true
      by (symmetry; apply Nat.leb_le; lia).
    cbn [andb].
    replace (nat_of_ascii d + 32 - 32)%nat with (nat_of_ascii d) by lia.
    now rewrite ascii_nat_embedding.
Qed.

Lemma eq_ignoring_case_upper s1 :
  forall s2, eq_ignoring_case s1 s2 = true -> upper s1 = upper s2.
Proof.
  induction s1 as [| c s1 IH]; intros [| d s2] H; cbn in *;
    try discriminate; [reflexivity |].
  apply andb_true_iff in H as [Hc Hs].
  now rewrite (same_letter_upper _ _ Hc), (IH _ Hs).
Qed.

(** The lookup's normalisation does not see a leading [#]. *)
Lemma normalise_strip_hash_prefix k :
  remove_char hash_sign (upper (strip_hash_prefix k))
  = remove_char hash_sign (upper k).
Proof.
  destruct k as [| c k]; [reflexivity |].
  cbn [strip_hash_prefix].
  destruct (Ascii.eqb c hash_sign) eqn:E; [| reflexivity].
  apply Ascii.eqb_eq in E. subst c.
  cbn [upper remove_char]. rewrite upper_ascii_hash.
  now rewrite Ascii.eqb_refl.
Qed.

(** C8: for every store and every two color keys that are equal up to
    ASCII letter case and a leading [#], [get_touch_zone_by_color] returns
    the same result for both, in every world. *)
Theorem color_lookup_ignores_case_and_hash (w : World) (k1 k2 : string)
  (Hsame : same_color_key k1 k2) :
  get_touch_zone_by_color k1 w = get_touch_zone_by_color k2 w.
Proof.
  unfold get_touch_zone_by_color, query_db, get_touch_zone_by_color_in.
  rewrite <- (normalise_strip_hash_prefix k1).
  rewrite <- (normalise_strip_hash_prefix k2).
  now rewrite (eq_ignoring_case_upper _ _ Hsame).
Qed.

Lemma color_lookup_ignores_case_and_hash_witness :
  same_color_key "#AABBCC" "aabbcc"
  /\ get_touch_zone_by_color "#AABBCC" (mkWorld quiet_env zone_tables 0 0 0)
     = get_touch_zone_by_color "aabbcc" (mkWorld quiet_env zone_tables 0 0 0)
  /\ fst (get_touch_zone_by_color "aabbcc"
            (mkWorld quiet_env zone_tables 0 0 0))
     = inr (Some wing_zone).
Proof.
  split; [reflexivity |]. split; [| reflexivity].
  apply (color_lookup_ignores_case_and_hash
           (mkWorld quiet_env zone_tables 0 0 0) "#AABBCC" "aabbcc").
  reflexivity.
Defined.

(** ** Running the registry operations when no write is rejected *)

Lemma bind_run {A B} (c : M A) (k : A -> M B) w a w' :
  c w = (inr a, w') -> bind c k w = k a w'.
Proof. intros H. unfold bind. now rewrite H. Qed.

Lemma bind_raise {A B} (c : M A) (k : A -> M B) w e w' :
  c w = (inl e, w') -> bind c k w = (inl e, w').
Proof. intros H. unfold bind. now rewrite H. Qed.

Lemma with_connection_run {A} (body : M A) w a w' :
  body w = (inr a, w') -> with_connection body w = (inr a, w').
Proof. intros H. unfold with_connection. now rewrite H. Qed.

Lemma with_connection_raise {A} (body : M A) w e w' :
  body w = (inl e, w') ->
  with_connection body w = (inl e, with_db (db w) w').
Proof. intros H. unfold with_connection. now rewrite H. Qed.

Lemma try_except_run {A} (body : M A) (handler : Exn -> M A) w a w' :
  body w = (inr a, w') -> try_except body handler w = (inr a, w').
Proof. intros H. unfold try_except. now rewrite H. Qed.

Lemma try_except_raise {A} (body : M A) (handler : Exn -> M A) w e w' :
  body w = (inl e, w') -> try_except body handler w = handler e w'.
Proof. intros H. unfold try_except. now rewrite H. Qed.

Lemma execute_run (f : Tables -> Tables) (w : World) :
  NoFaults (env w) ->
  execute f w
  = (inr tt, mkWorld (env w) (f (db w)) (ticks w) (uuids w) (S (writes w))).
Proof. intros H. unfold execute. now rewrite H. Qed.

Lemma _audit_run action target details e t tk u wr :
  NoFaults e ->
  _audit action target details (mkWorld e t tk u wr)
  = (inr tt,
     mkWorld e
       (set_audit_log (insert_audit (isoformat e tk) action target details)
          t)
       (S tk) u (S (S wr))).
Proof.
  intros H.
  unfold _audit, with_connection, bind, _now, commit, execute. cbn.
  now rewrite !H.
Qed.

Lemma insert_parents_loop_run c ps :
  forall e t tk u wr,
    NoFaults e ->
    for_each ps (fun p =>
      now <- _now ;;
      execute (set_lineage (insert_or_ignore_lineage p c now)))
      (mkWorld e t tk u wr)
    = (inr tt,
       mkWorld e (set_lineage (insert_parents e tk c ps) t)
         (length ps + tk) u (length ps + wr)).
Proof.
  induction ps as [| p ps IH]; intros e t tk u wr H.
  - cbn. unfold ret. now destruct t.
  - cbn [for_each]. unfold bind at 1. unfold bind at 1.
    unfold _now at 1. cbn.
    unfold execute at 1. cbn. rewrite H.
    unfold with_db. cbn.
    rewrite IH by assumption. cbn [insert_parents length].
    unfold set_lineage. cbn.
    do 2 f_equal; lia.
Qed.

Lemma register_run record e t tk u wr :
  NoFaults e ->
  register record (mkWorld e t tk u wr)
  = (inr record,
     mkWorld e (registered e tk record t)
       (S (length (parent_uids record) + tk)) u
       (length (parent_uids record) + wr + 5)).
Proof.
  intros H.
  unfold register.
  unfold bind at 1. unfold with_connection at 1.
  unfold bind at 1. unfold execute at 1. cbn. rewrite H.
  unfold bind at 1. unfold execute at 1. cbn. rewrite H.
  unfold bind at 1. unfold with_db. cbn.
  rewrite insert_parents_loop_run by assumption.
  unfold commit, execute. cbn. rewrite H.
  unfold bind at 1. unfold with_db. cbn.
  rewrite _audit_run by assumption.
  unfold ret, registered, set_audit_log, set_lineage, set_data_records.
  cbn. unfold register_details.
  do 2 f_equal. lia.
Qed.

Lemma delete_run x e t tk u wr :
  NoFaults e ->
  delete x (mkWorld e t tk u wr)
  = (inr tt, mkWorld e (deleted e tk x t) (S tk) u (wr + 5)).
Proof.
  intros H.
  unfold delete.
  unfold bind at 1. unfold with_connection at 1.
  unfold bind, commit, execute. cbn. rewrite !H. cbn.
  unfold with_db. cbn.
  rewrite _audit_run by assumption.
  unfold deleted, set_audit_log, set_lineage, set_data_records. cbn.
  do 2 f_equal. lia.
Qed.

(** ** Descendants *)

Lemma _get_descendants_lineage depth :
  forall t t' u,
    lineage t = lineage t' ->
    _get_descendants depth t u = _get_descendants depth t' u.
Proof.
  induction depth as [| d IH]; intros t t' u E; [reflexivity |].
  cbn [_get_descendants]. rewrite E.
  generalize (select_children u (lineage t')).
  induction l as [| c cs IHcs]; [reflexivity |].
  cbn [for_children]. rewrite (IH t t' c E). now rewrite IHcs.
Qed.

Lemma for_children_spec below cs :
  forall l,
    for_children below cs = Some l ->
    (forall c, In c cs -> exists found, below c = Some found)
    /\ (forall v, In v l <->
                  exists c found,
                    In c cs /\ below c = Some found
                    /\ (v = c \/ In v found)).
Proof.
  induction cs as [| c cs IH]; intros l H; cbn in H.
  - injection H as <-. split; [intros c [] |].
    intros v; split; [intros [] | intros (c & f & [] & _)].
  - destruct (below c) as [found |] eqn:Ec; [| discriminate].
    destruct (for_children below cs) as [others |] eqn:Er; [| discriminate].
    injection H as <-.
    destruct (IH others eq_refl) as [IH1 IH2]. split.
    + intros c' [<- | Hin]; [eauto | auto].
    + intros v. cbn [In]. rewrite in_app_iff, IH2. split.
      * intros [Hcv | [Hv | (c' & f' & Hin & Hf & Hv)]].
        -- exists c, found. cbn. auto.
        -- exists c, found. cbn. auto.
        -- exists c', f'. cbn. auto.
      * intros (c' & f' & [<- | Hin] & Hf & Hv).
        -- rewrite Ec in Hf. injection Hf as <-.
           destruct Hv as [-> | Hv]; auto.
        -- right; right. eauto.
Qed.

Lemma for_children_total below cs :
  (forall c, In c cs -> exists found, below c = Some found) ->
  exists l, for_children below cs = Some l.
Proof.
  induction cs as [| c cs IH]; intros H; cbn; [eauto |].
  destruct (H c (or_introl eq_refl)) as [found ->].
  destruct IH as [others ->]; [intros; apply H; now right |].
  eauto.
Qed.

Lemma for_children_ext below below' cs :
  forall l,
    (forall c found, In c cs -> below c = Some found ->
                     below' c = Some found) ->
    for_children below cs = Some l ->
    for_children below' cs = Some l.
Proof.
  induction cs as [| c cs IH]; intros l Hext H; cbn in *; [assumption |].
  destruct (below c) as [found |] eqn:Ec; [| discriminate].
  destruct (for_children below cs) as [others |] eqn:Er; [| discriminate].
  rewrite (Hext c found (or_introl eq_refl) Ec).
  rewrite (IH others); auto.
Qed.

(** A deeper recursion limit changes nothing once the walk returns. *)
Lemma _get_descendants_deeper depth :
  forall t u l,
    _get_descendants depth t u = Some l ->
    _get_descendants (S depth) t u = Some l.
Proof.
  induction depth as [| d IH]; intros t u l H; [discriminate |].
  cbn [_get_descendants] in *.
  eapply for_children_ext; [| exact H].
  intros c found _ Hc. now apply IH in Hc.
Qed.

(** What [_get_descendants] returns holds exactly the descendants. *)
Lemma _get_descendants_reaches depth :
  forall t u l,
    _get_descendants depth t u = Some l ->
    forall v, In v l <-> reaches (lineage t) u v.
Proof.
  induction depth as [| d IH]; intros t u l H v; [discriminate |].
  cbn [_get_descendants] in H.
  apply for_children_spec in H as [Hall H]. rewrite H. split.
  - intros (c & found & Hc & Hf & [-> | Hv]).
    + now apply reaches_child.
    + apply reaches_below with c; [assumption |].
      now apply (IH t c found Hf).
  - intros Hr. inversion Hr as [u' v' Hc | u' c v' Hc Hcv]; subst.
    + destruct (Hall v Hc) as [found Hf]. exists v, found. auto.
    + destruct (Hall c Hc) as [found Hf]. exists c, found.
      repeat split; try assumption.
      right. now apply (IH t c found Hf).
Qed.

(** Whatever is reached from [u] is walked with less depth to spare. *)
Lemma _get_descendants_below t u v :
  reaches (lineage t) u v ->
  forall depth l,
    _get_descendants (S depth) t u = Some l ->
    exists l', _get_descendants depth t v = Some l'.
Proof.
  induction 1 as [u v Hc | u c v Hc _ IH]; intros depth l H;
    cbn [_get_descendants] in H;
    apply for_children_spec in H as [Hall _].
  - exact (Hall v Hc).
  - destruct (Hall c Hc) as [found Hf].
    destruct depth as [| d]; [discriminate |].
    destruct (IH d found Hf) as [l' Hl'].
    exists l'. now apply _get_descendants_deeper.
Qed.

(** With a cycle through [u] the walk exceeds every recursion limit. *)
Lemma _get_descendants_cycle t u :
  reaches (lineage t) u u ->
  forall depth, _get_descendants depth t u = None.
Proof.
  intros Hcyc. induction depth as [| d IH]; [reflexivity |].
  destruct (_get_descendants (S d) t u) as [l |] eqn:E; [| reflexivity].
  destruct (_get_descendants_below t u u Hcyc d l E) as [l' Hl'].
  congruence.
Qed.

Lemma reaches_trans es u v x :
  reaches es u v -> reaches es v x -> reaches es u x.
Proof.
  induction 1 as [u v Hc | u c v Hc _ IH]; intros Hvx.
  - now apply reaches_below with v.
  - apply reaches_below with c; auto.
Qed.

(** Where the lineage below [u] descends along a rank and the recursion
    limit exceeds the rank of [u], the walk returns. *)
Lemma _get_descendants_total (rank : string -> nat) t :
  forall depth u,
    (forall p c,
        p = u \/ reaches (lineage t) u p ->
        In c (select_children p (lineage t)) ->
        rank c < rank p) ->
    rank u < depth ->
    exists l, _get_descendants depth t u = Some l.
Proof.
  induction depth as [| d IH]; intros u Hrank Hd; [lia |].
  cbn [_get_descendants].
  apply for_children_total. intros c Hc.
  apply IH.
  - intros p c' [-> | Hp] Hc'.
    + apply Hrank; [| assumption]. right. now apply reaches_child.
    + apply Hrank; [| assumption]. right.
      apply reaches_below with c; assumption.
  - specialize (Hrank u c (or_introl eq_refl) Hc). lia.
Qed.

(** ** Marking rows stale *)

Lemma r_uid_set_row_status s r : r_uid (set_row_status s r) = r_uid r.
Proof. reflexivity. Qed.

Lemma mem_app u l l' : mem u (l ++ l') = mem u l || mem u l'.
Proof. unfold mem. apply existsb_app. Qed.

Lemma mem_In u l : mem u l = true <-> In u l.
Proof.
  unfold mem. rewrite existsb_exists. split.
  - intros (x & Hin & E). apply String.eqb_eq in E. now subst.
  - intros H. exists u. split; [assumption | apply String.eqb_refl].
Qed.

Lemma update_status_marked_stale u l rows :
  update_status STALE u (marked_stale l rows) = marked_stale (l ++ [u]) rows.
Proof.
  unfold update_status, marked_stale. rewrite map_map.
  apply map_ext. intros r. rewrite mem_app. cbn [mem existsb].
  destruct (mem (r_uid r) l); cbn.
  - now destruct (String.eqb (r_uid r) u).
  - now rewrite orb_false_r.
Qed.

Lemma marked_stale_nil rows : marked_stale [] rows = rows.
Proof. unfold marked_stale. cbn. apply map_id. Qed.

Lemma update_status_loop ds :
  forall l rows,
    fold_left (fun rows d => update_status STALE d rows) ds
      (marked_stale l rows)
    = marked_stale (l ++ ds) rows.
Proof.
  induction ds as [| d ds IH]; intros l rows; cbn.
  - now rewrite app_nil_r.
  - rewrite update_status_marked_stale, IH. now rewrite <- app_assoc.
Qed.

Lemma marked_stale_twice l l' rows :
  marked_stale l' (marked_stale l rows) = marked_stale (l ++ l') rows.
Proof.
  rewrite <- (update_status_loop l' l rows).
  rewrite <- (marked_stale_nil (marked_stale l rows)) at 2.
  now rewrite update_status_loop.
Qed.

Lemma select_record_marked_stale v l rows :
  select_record v (marked_stale l rows)
  = option_map (fun r => if mem v l then set_row_status STALE r else r)
      (select_record v rows).
Proof.
  unfold select_record, marked_stale.
  induction rows as [| r rows IH]; [reflexivity |].
  cbn [map find].
  assert (E : r_uid (if mem (r_uid r) l then set_row_status STALE r else r)
              = r_uid r) by now destruct (mem (r_uid r) l).
  rewrite E. destruct (String.eqb (r_uid r) v) eqn:Ev; [| exact IH].
  apply String.eqb_eq in Ev. now subst v.
Qed.

Lemma stale_loop_run ds :
  forall e t tk u wr,
    NoFaults e ->
    for_each ds (fun desc_uid =>
      execute (set_data_records (update_status STALE desc_uid)))
      (mkWorld e t tk u wr)
    = (inr tt,
       mkWorld e
         (set_data_records
            (fold_left (fun rows d => update_status STALE d rows) ds) t)
         tk u (length ds + wr)).
Proof.
  induction ds as [| d ds IH]; intros e t tk u wr H.
  - cbn. unfold ret. now destruct t.
  - cbn [for_each]. unfold bind at 1. unfold execute at 1. cbn.
    rewrite H. unfold with_db. cbn.
    rewrite IH by assumption. cbn [fold_left length].
    unfold set_data_records. cbn.
    do 2 f_equal. lia.
Qed.

Lemma mark_stale_run x ds e t tk u wr :
  NoFaults e ->
  _get_descendants (recursion_limit e) t x = Some ds ->
  mark_stale x (mkWorld e t tk u wr)
  = (inr tt, mkWorld e (staled e tk x ds t) (S tk) u (length ds + wr + 4)).
Proof.
  intros H Hds.
  unfold mark_stale.
  erewrite bind_run.
  2:{ apply with_connection_run.
      erewrite bind_run by (now apply execute_run).
      cbn [env db ticks uuids writes].
      erewrite bind_run.
      2:{ cbn [env db ticks uuids writes].
          rewrite (_get_descendants_lineage _
                     (set_data_records (update_status STALE x) t) t x
                     eq_refl), Hds.
          reflexivity. }
      erewrite bind_run by (now apply stale_loop_run).
      erewrite bind_run by (now apply execute_run).
      reflexivity. }
  unfold with_db, set_data_records.
  cbn [env db ticks uuids writes data_records lineage touch_zones
       audit_log].
  rewrite _audit_run by assumption.
  unfold staled, set_audit_log.
  cbn [data_records lineage touch_zones audit_log].
  rewrite <- (marked_stale_nil (data_records t)) at 1.
  rewrite update_status_marked_stale, update_status_loop. cbn [app].
  do 2 f_equal. lia.
Qed.

(** When the walk exceeds the recursion limit, the transaction is rolled
    back: no status has changed and nothing is audited. *)
Lemma mark_stale_raise x e t tk u wr :
  NoFaults e ->
  _get_descendants (recursion_limit e) t x = None ->
  mark_stale x (mkWorld e t tk u wr)
  = (inl RecursionError, mkWorld e t tk u (S wr)).
Proof.
  intros H Hds.
  unfold mark_stale.
  apply bind_raise.
  rewrite (with_connection_raise _ _ RecursionError
             (mkWorld e (set_data_records (update_status STALE x) t)
                tk u (S wr))); [reflexivity |].
  erewrite bind_run by (now apply execute_run).
  cbn [env db ticks uuids writes].
  apply bind_raise.
  cbn [env db ticks uuids writes].
  rewrite (_get_descendants_lineage _
             (set_data_records (update_status STALE x) t) t x eq_refl), Hds.
  reflexivity.
Qed.

(** ** Staleness propagation *)




(** On the diamond the shared descendant [d] is walked, and updated, once
    per path, and the audit entry counts it twice. *)
Example mark_stale_diamond_twice :
  _get_descendants 1000 diamond_tables "a" = Some ["b"; "d"; "c"; "d"]
  /\ map a_details
       (audit_log (db (snd (mark_stale "a"
                              (mkWorld quiet_env diamond_tables 0 0 0)))))
     = [[("descendants", JInt 4)]].
Proof. split; vm_compute; reflexivity. Qed.



(** On the cycle, in the quiet environment, the attempt ends in
    [RecursionError] with the statuses as they were. *)
Example mark_stale_cycle_raises :
  mark_stale "a" (mkWorld quiet_env cyclic_tables 0 0 0)
  = (inl RecursionError, mkWorld quiet_env cyclic_tables 0 0 1).
Proof. vm_compute. reflexivity. Qed.

(** ** Rows and edges under the statements *)

Lemma find_app {A} (f : A -> bool) (l l' : list A) :
  find f (l ++ l')
  = match find f l with
    | Some x => Some x
    | None => find f l'
    end.
Proof.
  induction l as [| x l IH]; [reflexivity |].
  cbn. now destruct (f x).
Qed.

Lemma find_filter_none {A} (f g : A -> bool) (l : list A) :
  (forall x, f x = true -> g x = false) ->
  find f (filter g l) = None.
Proof.
  intros H. induction l as [| x l IH]; [reflexivity |].
  cbn. destruct (g x) eqn:Eg; [| exact IH].
  cbn. destruct (f x) eqn:Ef; [| exact IH].
  rewrite (H x Ef) in Eg. discriminate.
Qed.

Lemma find_filter_same {A} (f g : A -> bool) (l : list A) :
  (forall x, f x = true -> g x = true) ->
  find f (filter g l) = find f l.
Proof.
  intros H. induction l as [| x l IH]; [reflexivity |].
  cbn. destruct (f x) eqn:Ef.
  - rewrite (H x Ef). cbn. now rewrite Ef.
  - destruct (g x); [cbn; rewrite Ef |]; exact IH.
Qed.

Lemma filter_filter {A} (f : A -> bool) (l : list A) :
  filter f (filter f l) = filter f l.
Proof.
  induction l as [| x l IH]; [reflexivity |].
  cbn. destruct (f x) eqn:E; [cbn; rewrite E; f_equal |]; exact IH.
Qed.

Lemma select_record_delete_same u rows :
  select_record u (delete_record u rows) = None.
Proof.
  unfold select_record, delete_record. apply find_filter_none.
  intros x ->. reflexivity.
Qed.

Lemma select_record_delete_other u v rows :
  v <> u ->
  select_record v (delete_record u rows) = select_record v rows.
Proof.
  intros Hne. unfold select_record, delete_record.
  apply find_filter_same. intros x Hx.
  apply String.eqb_eq in Hx. subst v.
  apply negb_true_iff. now apply String.eqb_neq.
Qed.

Lemma select_record_insert_same row rows :
  select_record (r_uid row) (insert_or_replace_record row rows) = Some row.
Proof.
  unfold select_record, insert_or_replace_record.
  rewrite find_app, find_filter_none.
  - cbn. now rewrite String.eqb_refl.
  - intros x ->. reflexivity.
Qed.

Lemma select_record_insert_other row v rows :
  v <> r_uid row ->
  select_record v (insert_or_replace_record row rows)
  = select_record v rows.
Proof.
  intros Hne. unfold select_record, insert_or_replace_record.
  rewrite find_app, find_filter_same.
  - destruct (find _ rows); [reflexivity |].
    cbn. apply String.eqb_neq in Hne. rewrite String.eqb_sym in Hne.
    now rewrite Hne.
  - intros x Hx. apply String.eqb_eq in Hx. subst v.
    apply negb_true_iff. now apply String.eqb_neq.
Qed.

Lemma insert_or_replace_record_twice row row' rows :
  r_uid row' = r_uid row ->
  insert_or_replace_record row' (insert_or_replace_record row rows)
  = insert_or_replace_record row' rows.
Proof.
  intros E. unfold insert_or_replace_record.
  rewrite filter_app, E, filter_filter. cbn.
  rewrite String.eqb_refl. cbn. now rewrite app_nil_r.
Qed.

(** ** Deleting a record *)

(** C5: [delete uid] removes the row of [uid] and every lineage edge that
    has [uid] as parent or as child, appends exactly one audit entry, and
    leaves every other row in the table as it was, the rows of the
    children of [uid] among them. *)
Theorem delete_removes_only_uid (w : World) (u : string)
  (Hfaults : NoFaults (env w)) :
  exists w',
    delete u w = (inr tt, w')
    /\ select_record u (data_records (db w')) = None
    /\ (forall r, In r (data_records (db w')) <->
                  In r (data_records (db w)) /\ r_uid r <> u)
    /\ (forall v, v <> u ->
                  select_record v (data_records (db w'))
                  = select_record v (data_records (db w)))
    /\ (forall e, In e (lineage (db w')) <->
                  In e (lineage (db w))
                  /\ parent_uid e <> u /\ child_uid e <> u)
    /\ (exists entry,
          audit_log (db w') = audit_log (db w) ++ [entry]
          /\ a_action entry = "delete"
          /\ a_target_uid entry = Some u)
    /\ touch_zones (db w') = touch_zones (db w).
Proof.
  destruct w as [e t tk uu wr]. cbn [env db] in *.
  eexists. split; [now apply delete_run |].
  cbn [db deleted data_records lineage audit_log touch_zones].
  repeat split.
  - apply select_record_delete_same.
  - unfold delete_record in H. now apply filter_In in H.
  - unfold delete_record in H. apply filter_In in H as [_ H].
    apply negb_true_iff in H. now apply String.eqb_neq.
  - intros [Hin Hne]. unfold delete_record. apply filter_In.
    split; [assumption |]. apply negb_true_iff. now apply String.eqb_neq.
  - intros v Hne. now apply select_record_delete_other.
  - unfold delete_lineage_touching in H. now apply filter_In in H.
  - unfold delete_lineage_touching in H. apply filter_In in H as [_ H].
    apply negb_true_iff, orb_false_iff in H as [H _].
    now apply String.eqb_neq.
  - unfold delete_lineage_touching in H. apply filter_In in H as [_ H].
    apply negb_true_iff, orb_false_iff in H as [_ H].
    now apply String.eqb_neq.
  - intros (Hin & Hp & Hc). unfold delete_lineage_touching.
    apply filter_In. split; [assumption |].
    apply negb_true_iff, orb_false_iff. split; now apply String.eqb_neq.
  - eexists. repeat split.
Qed.

Lemma delete_removes_only_uid_witness :
  exists w',
    delete "b" (mkWorld quiet_env chain_tables 0 0 0) = (inr tt, w')
    /\ map r_uid (data_records (db w')) = ["a"; "c"; "z"]
    /\ lineage (db w') = []
    /\ length (audit_log (db w')) = 1.
Proof.
  destruct (delete_removes_only_uid
              (mkWorld quiet_env chain_tables 0 0 0) "b")
    as (w' & Hrun & _).
  - intros n. reflexivity.
  - exists w'. split; [exact Hrun |].
    vm_compute in Hrun. injection Hrun as <-. repeat split.
Defined.

(** ** Registering twice *)

(** What the lineage queries return depends on the keys of the rows
    only. *)
Lemma select_parents_keys u es :
  select_parents u es
  = map fst (filter (fun k => String.eqb (snd k) u) (map edge_key es)).
Proof.
  unfold select_parents. induction es as [| e es IH]; [reflexivity |].
  cbn. destruct (String.eqb (child_uid e) u); cbn; now rewrite IH.
Qed.

Lemma select_children_keys u es :
  select_children u es
  = map snd (filter (fun k => String.eqb (fst k) u) (map edge_key es)).
Proof.
  unfold select_children. induction es as [| e es IH]; [reflexivity |].
  cbn. destruct (String.eqb (parent_uid e) u); cbn; now rewrite IH.
Qed.

Lemma get_in_keys t t' u :
  data_records t = data_records t' ->
  map edge_key (lineage t) = map edge_key (lineage t') ->
  get_in t u = get_in t' u.
Proof.
  intros Er Ek. unfold get_in.
  now rewrite Er, !select_parents_keys, !select_children_keys, Ek.
Qed.

Lemma existsb_same_edge_false p c es :
  (forall x, In x es -> child_uid x <> c \/ parent_uid x <> p) ->
  existsb (same_edge p c) es = false.
Proof.
  intros H. apply not_true_is_false. rewrite existsb_exists.
  intros (x & Hin & Hx). unfold same_edge in Hx.
  apply andb_true_iff in Hx as [Hp Hc].
  apply String.eqb_eq in Hp, Hc.
  destruct (H x Hin); contradiction.
Qed.

(** The loop of [register] only ever appends edges into [c], after the
    edges that were there. *)
Lemma insert_parents_appends c ps :
  forall e tk es,
  exists new,
    insert_parents e tk c ps es = es ++ new
    /\ (forall x, In x new -> child_uid x = c).
Proof.
  induction ps as [| p ps IH]; intros e tk es; cbn [insert_parents].
  - exists []. split; [now rewrite app_nil_r | intros x []].
  - unfold insert_or_ignore_lineage.
    destruct (existsb (same_edge p c) es).
    + apply IH.
    + destruct (IH e (S tk)
                  (es ++ [mkLineageRow p c "derived_from"
                            (isoformat e tk)]))
        as (new & E & Hnew).
      eexists. rewrite E, <- app_assoc. split; [reflexivity |].
      intros x [<- | Hx]; [reflexivity | now apply Hnew].
Qed.

(** With the edges into [c] out of the way, inserting the parents that the
    rows [mine] name, none of them twice, writes rows with their keys. *)
Lemma insert_parents_replays c mine :
  forall e tk rest done,
    (forall x, In x rest -> child_uid x <> c) ->
    (forall x, In x (done ++ mine) -> child_uid x = c) ->
    NoDup (map parent_uid (done ++ mine)) ->
    exists again,
      insert_parents e tk c (map parent_uid mine) (rest ++ done)
      = rest ++ done ++ again
      /\ map edge_key again = map edge_key mine.
Proof.
  induction mine as [| m mine IH]; intros e tk rest done Hrest Hc Hnd.
  - exists []. cbn. now rewrite app_nil_r.
  - cbn [map insert_parents]. unfold insert_or_ignore_lineage.
    rewrite existsb_same_edge_false.
    + set (m' := mkLineageRow (parent_uid m) c "derived_from"
                   (isoformat e tk)).
      destruct (IH e (S tk) rest (done ++ [m'])) as (again & E & Hk).
      * assumption.
      * intros x Hx. rewrite <- app_assoc in Hx.
        apply in_app_iff in Hx as [Hx | [<- | Hx]].
        -- apply Hc, in_app_iff. now left.
        -- reflexivity.
        -- apply Hc, in_app_iff. right. now right.
      * rewrite <- app_assoc, !map_app. rewrite map_app in Hnd.
        exact Hnd.
      * exists (m' :: again). rewrite <- !app_assoc in E.
        rewrite <- app_assoc. split; [exact E |].
        cbn [map]. rewrite Hk. f_equal.
        unfold edge_key. cbn. f_equal. symmetry.
        apply Hc, in_app_iff. right. now left.
    + intros x Hx. apply in_app_iff in Hx as [Hx | Hx].
      * left. now apply Hrest.
      * right. rewrite map_app in Hnd. cbn [map] in Hnd.
        apply NoDup_remove_2 in Hnd. intros E. apply Hnd.
        apply in_app_iff. left. rewrite <- E. now apply in_map.
Qed.

Lemma insert_parents_distinct c ps :
  forall e tk rest done,
    (forall x, In x rest -> child_uid x <> c) ->
    (forall x, In x done -> child_uid x = c) ->
    NoDup (map parent_uid done) ->
    exists mine,
      insert_parents e tk c ps (rest ++ done) = rest ++ mine
      /\ (forall x, In x mine -> child_uid x = c)
      /\ NoDup (map parent_uid mine).
Proof.
  induction ps as [| p ps IH]; intros e tk rest done Hrest Hc Hnd;
    cbn [insert_parents].
  - exists done. auto.
  - unfold insert_or_ignore_lineage.
    destruct (existsb (same_edge p c) (rest ++ done)) eqn:Ex.
    + now apply IH.
    + rewrite <- app_assoc. apply IH; [assumption | |].
      * intros x Hx. apply in_app_iff in Hx as [Hx | [<- | []]];
          [now apply Hc | reflexivity].
      * rewrite map_app. cbn [map].
        apply NoDup_app_remove_l with (l := []). cbn.
        apply Permutation_NoDup with (l := p :: map parent_uid done).
        -- apply Permutation_cons_append.
        -- constructor; [| assumption].
           intros Hin. apply in_map_iff in Hin as (x & Ep & Hx).
           assert (Hsame : existsb (same_edge p c) (rest ++ done) = true).
           { apply existsb_exists. exists x. split.
             - apply in_app_iff. now right.
             - unfold same_edge. rewrite Ep, (Hc x Hx).
               now rewrite !String.eqb_refl. }
           congruence.
Qed.

Lemma filter_keep_all {A} (f : A -> bool) (l : list A) :
  (forall x, In x l -> f x = true) -> filter f l = l.
Proof.
  induction l as [| x l IH]; intros H; [reflexivity |].
  cbn. rewrite (H x (or_introl eq_refl)). f_equal.
  apply IH. intros y Hy. apply H. now right.
Qed.

Lemma filter_drop_all {A} (f : A -> bool) (l : list A) :
  (forall x, In x l -> f x = false) -> filter f l = [].
Proof.
  induction l as [| x l IH]; intros H; [reflexivity |].
  cbn. rewrite (H x (or_introl eq_refl)).
  apply IH. intros y Hy. apply H. now right.
Qed.

Lemma delete_lineage_of_child_clean c es x :
  In x (delete_lineage_of_child c es) -> child_uid x <> c.
Proof.
  unfold delete_lineage_of_child. intros H.
  apply filter_In in H as [_ H].
  apply negb_true_iff in H. now apply String.eqb_neq.
Qed.

Lemma delete_lineage_of_child_split c rest mine :
  (forall x, In x rest -> child_uid x <> c) ->
  (forall x, In x mine -> child_uid x = c) ->
  delete_lineage_of_child c (rest ++ mine) = rest.
Proof.
  intros Hrest Hmine. unfold delete_lineage_of_child.
  rewrite filter_app, filter_keep_all, filter_drop_all.
  - apply app_nil_r.
  - intros x Hx. rewrite (Hmine x Hx). now rewrite String.eqb_refl.
  - intros x Hx. apply negb_true_iff, String.eqb_neq. now apply Hrest.
Qed.

Lemma select_parents_split c rest mine :
  (forall x, In x rest -> child_uid x <> c) ->
  (forall x, In x mine -> child_uid x = c) ->
  select_parents c (rest ++ mine) = map parent_uid mine.
Proof.
  intros Hrest Hmine. unfold select_parents.
  rewrite filter_app, (filter_drop_all _ rest), (filter_keep_all _ mine);
    [reflexivity | |].
  - intros x Hx. rewrite (Hmine x Hx). apply String.eqb_refl.
  - intros x Hx. apply String.eqb_neq. now apply Hrest.
Qed.

(** C3: registering a record, reading it back with [get] and registering
    what was read leaves the stored row, its version included, as the
    first [register] wrote it; the row table and the set of lineage edges
    are the same, so every [get] answers as before. *)
Theorem register_get_register (w : World) (record : DataRecord)
  (Hfaults : NoFaults (env w)) :
  exists w1 stored w2,
    register record w = (inr record, w1)
    /\ get (uid record) w1 = (inr (Some stored), w1)
    /\ register stored w1 = (inr stored, w2)
    /\ row_of stored = row_of record
    /\ version stored = version record
    /\ data_records (db w2) = data_records (db w1)
    /\ map edge_key (lineage (db w2)) = map edge_key (lineage (db w1))
    /\ (forall u, get_in (db w2) u = get_in (db w1) u)
    /\ select_record (uid record) (data_records (db w2))
       = Some (row_of record).
Proof.
  destruct w as [e t tk uu wr]. cbn [env] in Hfaults.
  set (c := uid record).
  set (rest := delete_lineage_of_child c (lineage t)).
  destruct (insert_parents_distinct c (parent_uids record) e tk rest [])
    as (mine & Emine & Hmine & Hnd);
    [apply delete_lineage_of_child_clean | intros x [] | constructor |].
  rewrite app_nil_r in Emine.
  assert (Hrest : forall x, In x rest -> child_uid x <> c)
    by apply delete_lineage_of_child_clean.
  assert (Hrow : select_record c
                   (insert_or_replace_record (row_of record)
                      (data_records t)) = Some (row_of record))
    by apply (select_record_insert_same (row_of record)).
  eexists. eexists. eexists.
  split; [now apply register_run |].
  split.
  { unfold get, query_db, get_in.
    cbn [db registered data_records lineage]. fold c. rewrite Hrow.
    reflexivity. }
  split; [now apply register_run |].
  cbn [db registered data_records lineage uid parent_uids row_of
       r_uid r_path r_category r_status r_size r_hash_sha256 r_created_at
       r_modified_at r_version r_metadata r_schema_uid version metadata
       path category status size hash_sha256 created_at modified_at
       schema_uid].
  fold c. fold rest. rewrite Emine.
  split; [reflexivity |]. split; [reflexivity |].
  assert (Erows : insert_or_replace_record (row_of record)
                    (insert_or_replace_record (row_of record)
                       (data_records t))
                  = insert_or_replace_record (row_of record)
                      (data_records t))
    by now apply insert_or_replace_record_twice.
  assert (Ekeys :
    map edge_key
      (insert_parents e (S (length (parent_uids record) + tk)) c
         (select_parents c (rest ++ mine))
         (delete_lineage_of_child c (rest ++ mine)))
    = map edge_key (rest ++ mine)).
  { rewrite select_parents_split, delete_lineage_of_child_split
      by assumption.
    destruct (insert_parents_replays c mine e
                (S (length (parent_uids record) + tk)) rest [])
      as (again & E & Hk); [assumption .. |].
    rewrite app_nil_r in E. rewrite E. cbn [app].
    now rewrite !map_app, Hk. }
  split; [exact Erows |].
  split; [exact Ekeys |].
  split.
  - intros u. apply get_in_keys; [exact Erows |].
    cbn [registered lineage uid parent_uids]. fold c. fold rest.
    rewrite Emine. exact Ekeys.
  - etransitivity; [| exact Hrow]. f_equal. exact Erows.
Qed.

Lemma register_get_register_witness :
  let record :=
    mkDataRecord "c" "c.json" DERIVED VALID 10 "e3b0c442" "t0" "t1" 7
      ["a"; "b"; "a"] [] [] None in
  exists w1 stored w2,
    register record (mkWorld quiet_env chain_tables 0 0 0)
    = (inr record, w1)
    /\ get "c" w1 = (inr (Some stored), w1)
    /\ parent_uids stored = ["a"; "b"]
    /\ register stored w1 = (inr stored, w2)
    /\ version stored = 7%Z
    /\ data_records (db w2) = data_records (db w1).
Proof.
  intros record.
  destruct (register_get_register
              (mkWorld quiet_env chain_tables 0 0 0) record)
    as (w1 & stored & w2 & H1 & H2 & H3 & _ & H5 & H6 & _).
  - intros n. reflexivity.
  - exists w1, stored, w2.
    repeat split; try assumption.
    vm_compute in H1. injection H1 as <-.
    vm_compute in H2. injection H2 as <-. reflexivity.
Defined.

(** ** Scanning *)




Lemma query_all_in_uids t limit :
  map uid (query_all_in t limit)
  = firstn limit (map r_uid (data_records t)).
Proof.
  unfold query_all_in.
  assert (H : forall u, In u (map r_uid (data_records t)) ->
                        exists r, get_in t u = Some r /\ uid r = u).
  { intros u Hu. unfold get_in.
    destruct (select_record u (data_records t)) as [row |] eqn:E.
    - eexists. split; [reflexivity |]. cbn.
      unfold select_record in E. apply find_some in E as [_ E].
      now apply String.eqb_eq in E.
    - exfalso. apply in_map_iff in Hu as (row & Eu & Hrow).
      unfold select_record in E.
      apply (find_none _ _ E) in Hrow. rewrite Eu in Hrow.
      now rewrite String.eqb_refl in Hrow. }
  assert (Hsub : forall u, In u (firstn limit (map r_uid (data_records t)))
                           -> In u (map r_uid (data_records t)))
    by (intros u Hu;
        rewrite <- (firstn_skipn limit (map r_uid (data_records t)));
        apply in_or_app; now left).
  induction (firstn limit (map r_uid (data_records t))) as [| u us IH];
    [reflexivity |].
  cbn [flat_map].
  destruct (H u (Hsub u (or_introl eq_refl))) as (r & -> & Eu).
  cbn. rewrite Eu. f_equal. apply IH.
  intros v Hv. apply Hsub. now right.
Qed.



(** ** One entry of a scan *)

Lemma note_validation_run st messages md e t tk uu wr :
  note_validation st messages md (mkWorld e t tk uu wr)
  = (inr (fst (noted_validation e tk st messages md)),
     mkWorld e t (snd (noted_validation e tk st messages md)) uu wr).
Proof. destruct messages; reflexivity. Qed.

Lemma noted_validation_ticks e tk st messages md :
  tk <= snd (noted_validation e tk st messages md).
Proof. destruct messages; cbn; lia. Qed.


Lemma get_by_path_in_some t p record :
  get_by_path_in t p = Some record ->
  get_in t (uid record) = Some record
  /\ select_record (uid record) (data_records t) = Some (row_of record)
  /\ parent_uids record = select_parents (uid record) (lineage t)
  /\ child_uids record = select_children (uid record) (lineage t).
Proof.
  unfold get_by_path_in, select_uid_by_path.
  destruct (find _ (data_records t)) as [row |]; [| discriminate].
  cbn. unfold get_in.
  destruct (select_record (r_uid row) (data_records t)) as [row' |] eqn:E;
    [| discriminate].
  intros H. injection H as <-. cbn.
  assert (Eu : r_uid row' = r_uid row).
  { unfold select_record in E. apply find_some in E as [_ E].
    now apply String.eqb_eq in E. }
  rewrite <- Eu in *. rewrite E. repeat split. now destruct row'.
Qed.


(** ** The environment is never written *)

Lemma keeps_env_ret {A} (a : A) : keeps_env (ret a).
Proof. intros w. reflexivity. Qed.

Lemma keeps_env_raise {A} (e : Exn) : keeps_env (@raise A e).
Proof. intros w. reflexivity. Qed.

Lemma keeps_env_bind {A B} (c : M A) (k : A -> M B) :
  keeps_env c -> (forall a, keeps_env (k a)) -> keeps_env (bind c k).
Proof.
  intros Hc Hk w. unfold bind. specialize (Hc w).
  destruct (c w) as [[ex | a] w']; cbn in *; [assumption |].
  now rewrite Hk.
Qed.

Lemma keeps_env_try_except {A} (body : M A) (handler : Exn -> M A) :
  keeps_env body -> (forall e, keeps_env (handler e)) ->
  keeps_env (try_except body handler).
Proof.
  intros Hb Hh w. unfold try_except. specialize (Hb w).
  destruct (body w) as [[ex | a] w']; cbn in *; [| assumption].
  now rewrite Hh.
Qed.

Lemma keeps_env_with_connection {A} (body : M A) :
  keeps_env body -> keeps_env (with_connection body).
Proof.
  intros Hb w. unfold with_connection. specialize (Hb w).
  now destruct (body w) as [[ex | a] w'].
Qed.

Lemma keeps_env_execute stmt : keeps_env (execute stmt).
Proof.
  intros w. unfold execute. now destruct (storage_fault (env w) (writes w)).
Qed.

Lemma keeps_env__now : keeps_env _now.
Proof. intros w. reflexivity. Qed.

Lemma keeps_env_query_db {A} (q : Tables -> A) : keeps_env (query_db q).
Proof. intros w. reflexivity. Qed.

Lemma keeps_env_generate_uid prefix : keeps_env (generate_uid prefix).
Proof. intros w. reflexivity. Qed.

Lemma keeps_env_for_each {A} (xs : list A) (body : A -> M unit) :
  (forall x, keeps_env (body x)) -> keeps_env (for_each xs body).
Proof.
  intros H. induction xs as [| x xs IH]; cbn [for_each].
  - apply keeps_env_ret.
  - apply keeps_env_bind; auto.
Qed.

Lemma keeps_env_for_each_acc {A S} (xs : list A) (body : A -> S -> M S) :
  (forall x s, keeps_env (body x s)) ->
  forall s, keeps_env (for_each_acc xs body s).
Proof.
  intros H. induction xs as [| x xs IH]; intros s; cbn [for_each_acc].
  - apply keeps_env_ret.
  - apply keeps_env_bind; auto.
Qed.

Lemma keeps_env_commit : keeps_env commit.
Proof. apply keeps_env_execute. Qed.

Create HintDb keeps.
#[local] Hint Resolve keeps_env_ret keeps_env_raise keeps_env_execute
  keeps_env_commit keeps_env__now keeps_env_query_db
  keeps_env_generate_uid : keeps.

Ltac keeps :=
  repeat first
    [ solve [ auto with keeps ]
    | apply keeps_env_bind; [| intros ? ]
    | apply keeps_env_with_connection
    | apply keeps_env_for_each; intros ?
    | apply keeps_env_try_except; [| intros ? ] ].

Lemma keeps_env__audit action target details :
  keeps_env (_audit action target details).
Proof. unfold _audit. keeps. Qed.

#[local] Hint Resolve keeps_env__audit : keeps.

Lemma keeps_env_register record : keeps_env (register record).
Proof. unfold register. keeps. Qed.

Lemma keeps_env_mark_stale u : keeps_env (mark_stale u).
Proof.
  unfold mark_stale. keeps.
  intros w. now destruct (_get_descendants _ _ _).
Qed.

Lemma keeps_env_delete u : keeps_env (delete u).
Proof. unfold delete. keeps. Qed.

Lemma keeps_env_note_validation st messages md :
  keeps_env (note_validation st messages md).
Proof. destruct messages; cbn [note_validation]; keeps. Qed.

#[local] Hint Resolve keeps_env_register keeps_env_mark_stale
  keeps_env_delete keeps_env_note_validation : keeps.

Lemma keeps_env_scan_entry config p stats :
  keeps_env (scan_entry config p stats).
Proof.
  unfold scan_entry. keeps.
  - unfold stat. destruct (e_st_size p); auto with keeps.
  - destruct (e_validation p) as [vs vm].
    destruct a0 as [existing |]; [destruct (_ || _) |]; keeps.
Qed.

(** An entry of the scan never raises: whatever goes wrong inside is
    counted. *)
Lemma scan_entry_returns config p stats w :
  exists stats' w',
    scan_entry config p stats w = (inr stats', w') /\ env w' = env w.
Proof.
  pose proof (keeps_env_scan_entry config p stats w) as Henv.
  unfold scan_entry, try_except in *.
  match goal with
  | |- context [match ?body w with _ => _ end] =>
      destruct (body w) as [[ex | st] w']
  end; cbn in Henv.
  - exists (incr_errors stats), w'. split; [reflexivity | exact Henv].
  - exists st, w'. split; [reflexivity | exact Henv].
Qed.

Lemma scan_entries_return config files :
  forall stats w,
  exists stats' w',
    for_each_acc files (scan_entry config) stats w = (inr stats', w')
    /\ env w' = env w.
Proof.
  induction files as [| p files IH]; intros stats w; cbn [for_each_acc].
  - unfold ret. eauto.
  - destruct (scan_entry_returns config p stats w) as (s1 & w1 & E & He).
    destruct (IH s1 w1) as (s2 & w2 & E2 & He2).
    exists s2, w2. split; [| congruence].
    now rewrite (bind_run _ _ _ _ _ E).
Qed.

Lemma removals_return seen_paths records :
  forall stats w,
    NoFaults (env w) ->
    exists stats' w',
      for_each_acc records (fun record stats =>
        if seen seen_paths (path record) then ret stats
        else delete (uid record) ;; ret (incr_removed stats)) stats w
      = (inr stats', w')
      /\ env w' = env w.
Proof.
  induction records as [| r records IH]; intros stats w H;
    cbn [for_each_acc].
  - unfold ret. eauto.
  - destruct (seen seen_paths (path r)).
    + rewrite (bind_run (ret stats) _ w stats w eq_refl). now apply IH.
    + destruct w as [e t tk uu wr]. cbn [env] in H.
      erewrite bind_run.
      2:{ erewrite bind_run by (now apply delete_run). reflexivity. }
      destruct (IH (incr_removed stats)
                  (mkWorld e (deleted e tk (uid r) t) (S tk) uu (wr + 5)) H)
        as (s2 & w2 & E2 & He2).
      exists s2, w2. split; [exact E2 | exact He2].
Qed.

(** With a storage engine that accepts every write, a scan pass
    returns its counts. *)
Lemma scan_returns config root w :
  NoFaults (env w) ->
  exists stats w', scan config root w = (inr stats, w').
Proof.
  intros H. unfold scan.
  destruct (scan_entries_return config (walk_all config root) zero_stats w)
    as (s1 & w1 & E1 & He1).
  rewrite (bind_run _ _ _ _ _ E1).
  rewrite (bind_run (query_all scan_query_limit) _ w1
             (query_all_in (db w1) scan_query_limit) w1 eq_refl).
  rewrite <- He1 in H.
  destruct (removals_return (map e_rel (walk_all config root))
              (query_all_in (db w1) scan_query_limit) s1 w1 H)
    as (s2 & w2 & E2 & _).
  eauto.
Qed.





(** ** A tracked file that changed *)

Lemma in_select_children u v es :
  In v (select_children u es) <-> In (u, v) (map edge_key es).
Proof.
  unfold select_children. rewrite !in_map_iff. split.
  - intros (x & <- & Hx). apply filter_In in Hx as [Hx E].
    apply String.eqb_eq in E. subst u. now exists x.
  - intros (x & E & Hx). injection E as <- <-. exists x.
    split; [reflexivity |]. apply filter_In.
    split; [assumption | apply String.eqb_refl].
Qed.

Lemma in_select_parents u v es :
  In v (select_parents u es) <-> In (v, u) (map edge_key es).
Proof.
  unfold select_parents. rewrite !in_map_iff. split.
  - intros (x & <- & Hx). apply filter_In in Hx as [Hx E].
    apply String.eqb_eq in E. subst u. now exists x.
  - intros (x & E & Hx). injection E as <- <-. exists x.
    split; [reflexivity |]. apply filter_In.
    split; [assumption | apply String.eqb_refl].
Qed.

(** Reachability only sees the set of edges. *)
Lemma reaches_same_edges es es' u v :
  (forall k, In k (map edge_key es) <-> In k (map edge_key es')) ->
  reaches es u v -> reaches es' u v.
Proof.
  intros Hk. induction 1 as [u v Hc | u c v Hc _ IH].
  - apply reaches_child. now apply in_select_children, Hk,
      in_select_children.
  - apply reaches_below with c; [| exact IH].
    now apply in_select_children, Hk, in_select_children.
Qed.

Lemma in_insert_parents c ps :
  forall e tk es k,
    In k (map edge_key (insert_parents e tk c ps es)) <->
    In k (map edge_key es) \/ exists p, In p ps /\ k = (p, c).
Proof.
  induction ps as [| p ps IH]; intros e tk es k; cbn [insert_parents].
  - split; [now left | intros [H | (p & [] & _)]; exact H].
  - rewrite IH. unfold insert_or_ignore_lineage.
    destruct (existsb (same_edge p c) es) eqn:Ex.
    + split.
      * intros [H | (q & Hq & E)]; [now left |].
        right. exists q. split; [now right | exact E].
      * intros [H | (q & [<- | Hq] & E)]; [now left | | right; eauto].
        left. subst k. apply existsb_exists in Ex as (x & Hx & Es).
        unfold same_edge in Es. apply andb_true_iff in Es as [Ep Ec].
        apply String.eqb_eq in Ep, Ec. apply in_map_iff.
        exists x. split; [| assumption]. unfold edge_key. congruence.
    + rewrite map_app, in_app_iff. cbn [map In edge_key parent_uid
                                        child_uid]. split.
      * intros [[H | [<- | []]] | (q & Hq & E)].
        -- now left.
        -- right. exists p. split; [now left | reflexivity].
        -- right. exists q. split; [now right | exact E].
      * intros [H | (q & [<- | Hq] & E)].
        -- left. now left.
        -- left. right. left. now symmetry.
        -- right. eauto.
Qed.

(** Registering a record with the parents [get] read for it leaves the
    set of edges as it was. *)
Lemma register_read_back_edges e tk c es k :
  In k (map edge_key
          (insert_parents e tk c (select_parents c es)
             (delete_lineage_of_child c es))) <->
  In k (map edge_key es).
Proof.
  rewrite in_insert_parents. split.
  - intros [H | (p & Hp & ->)].
    + apply in_map_iff in H as (x & <- & Hx).
      unfold delete_lineage_of_child in Hx. apply filter_In in Hx as [Hx _].
      now apply in_map.
    + now apply in_select_parents.
  - intros H. destruct k as [p c'].
    destruct (String.eqb_spec c' c) as [-> | Hne].
    + right. exists p. split; [now apply in_select_parents | reflexivity].
    + left. apply in_map_iff in H as (x & E & Hx).
      apply in_map_iff. exists x. split; [assumption |].
      unfold delete_lineage_of_child. apply filter_In.
      split; [assumption |]. apply negb_true_iff, String.eqb_neq.
      injection E as _ E. congruence.
Qed.

(** Along a rank that descends below [u], nothing below [u] climbs
    back. *)
Lemma rank_descends (rank : string -> nat) es u :
  (forall q c,
      q = u \/ reaches es u q ->
      In c (select_children q es) -> rank c < rank q) ->
  forall x v,
    reaches es x v -> x = u \/ reaches es u x -> rank v < rank x.
Proof.
  intros Hrank x v H. induction H as [x v Hc | x c v Hc _ IH]; intros Hx.
  - now apply Hrank.
  - assert (Hcx : rank c < rank x) by now apply Hrank.
    assert (Huc : reaches es u c).
    { destruct Hx as [-> | Hx]; [now apply reaches_child |].
      apply reaches_trans with x; [assumption | now apply reaches_child]. }
    specialize (IH (or_intror Huc)). lia.
Qed.

(** The loop [for child_uid in existing.child_uids: mark_stale(...)]. *)
Lemma mark_stale_children_run cs :
  forall e t tk uu wr,
    NoFaults e ->
    (forall c, In c cs ->
               exists ds, _get_descendants (recursion_limit e) t c = Some ds)
    ->
    exists t' tk' wr' targets,
      for_each cs mark_stale (mkWorld e t tk uu wr)
      = (inr tt, mkWorld e t' tk' uu wr')
      /\ data_records t' = marked_stale targets (data_records t)
      /\ lineage t' = lineage t
      /\ touch_zones t' = touch_zones t
      /\ length (audit_log t') = length (audit_log t) + length cs
      /\ (forall v, In v targets <->
                    exists c, In c cs
                              /\ (v = c \/ reaches (lineage t) c v)).
Proof.
  induction cs as [| c cs IH]; intros e t tk uu wr H Hds.
  - exists t, tk, wr, []. repeat split.
    + now rewrite marked_stale_nil.
    + cbn. lia.
    + intros [].
    + intros (c & [] & _).
  - destruct (Hds c (or_introl eq_refl)) as [ds Ed].
    destruct (IH e (staled e tk c ds t) (S tk) uu (length ds + wr + 4) H)
      as (t' & tk' & wr' & targets & Erun & Erows & Elin & Etz & Elen
          & Htargets).
    { intros c' Hc'. destruct (Hds c' (or_intror Hc')) as [ds' Ed'].
      exists ds'. rewrite <- Ed'. now apply _get_descendants_lineage. }
    exists t', tk', wr', ((c :: ds) ++ targets).
    split; [| split; [| split; [| split; [| split]]]].
    + cbn [for_each].
      rewrite (bind_run _ _ _ _ _ (mark_stale_run c ds e t tk uu wr H Ed)).
      exact Erun.
    + rewrite Erows. cbn [staled data_records]. apply marked_stale_twice.
    + exact Elin.
    + exact Etz.
    + rewrite Elen. cbn [staled audit_log]. unfold insert_audit.
      rewrite length_app. cbn. lia.
    + intros v. rewrite in_app_iff, Htargets. cbn [In staled lineage].
      rewrite (_get_descendants_reaches _ _ _ _ Ed v). split.
      * intros [[E | Hv] | (c' & Hc' & Hv)].
        -- exists c. split; [now left | left; now symmetry].
        -- exists c. split; [now left | now right].
        -- exists c'. split; [now right | exact Hv].
      * intros (c' & [<- | Hc'] & Hv).
        -- destruct Hv as [-> | Hv]; [left; now left | left; now right].
        -- right. eauto.
Qed.

Lemma reaches_inv es u v :
  reaches es u v <->
  exists c, In c (select_children u es) /\ (v = c \/ reaches es c v).
Proof.
  split.
  - intros H. inversion H as [u' v' Hc | u' c v' Hc Hcv]; subst.
    + exists v. auto.
    + exists c. auto.
  - intros (c & Hc & [-> | Hcv]).
    + now apply reaches_child.
    + now apply reaches_below with c.
Qed.

(** The changed branch of [scan_entry], where the lineage below the
    record descends along a rank within the recursion limit. *)
Lemma scan_entry_changed config p stats sz existing
  (rank : string -> nat) e t tk uu wr :
  NoFaults e ->
  e_st_size p = Some sz ->
  get_by_path_in t (e_rel p) = Some existing ->
  hash_differs (hash_sha256 existing) (hash_file config p)
  || negb (Z.eqb (size existing) sz) = true ->
  (forall q c,
      q = uid existing \/ reaches (lineage t) (uid existing) q ->
      In c (select_children q (lineage t)) -> rank c < rank q) ->
  rank (uid existing) <= recursion_limit e ->
  exists t' tk' wr' targets,
    scan_entry config p stats (mkWorld e t tk uu wr)
    = (inr (incr_updated stats), mkWorld e t' tk' uu wr')
    /\ data_records t'
       = marked_stale targets
           (insert_or_replace_record
              (row_of (rescanned config e tk p sz existing))
              (data_records t))
    /\ (forall v, In v targets <-> reaches (lineage t) (uid existing) v)
    /\ (forall k, In k (map edge_key (lineage t')) <->
                  In k (map edge_key (lineage t)))
    /\ length (audit_log t')
       = length (audit_log t) + 1 + length (child_uids existing)
    /\ touch_zones t' = touch_zones t.
Proof.
  intros H Hstat Htracked Hchanged Hrank Hdepth.
  destruct (get_by_path_in_some _ _ _ Htracked) as (_ & _ & Hpar & Hchi).
  set (u := uid existing) in *.
  set (ex' := rescanned config e tk p sz existing).
  set (tk1 := snd (noted_validation e (S tk) (fst (e_validation p))
                     (snd (e_validation p)) (metadata existing))).
  set (t1 := registered e tk1 ex' t).
  assert (Hkeys : forall k, In k (map edge_key (lineage t1)) <->
                            In k (map edge_key (lineage t))).
  { intros k. unfold t1. cbn [registered lineage]. unfold ex'.
    cbn [rescanned uid parent_uids]. rewrite Hpar.
    apply register_read_back_edges. }
  assert (Hto : forall a b, reaches (lineage t1) a b ->
                            reaches (lineage t) a b)
    by (intros a b; now apply reaches_same_edges).
  assert (Hfrom : forall a b, reaches (lineage t) a b ->
                              reaches (lineage t1) a b)
    by (intros a b; apply reaches_same_edges; intros k; symmetry;
        apply Hkeys).
  destruct (mark_stale_children_run (child_uids existing) e t1
              (S (length (parent_uids ex') + tk1)) uu
              (length (parent_uids ex') + wr + 5) H)
    as (t' & tk' & wr' & targets & Erun & Erows & Elin & Etz & Elen
        & Htargets).
  { intros c Hc. rewrite Hchi in Hc.
    apply (_get_descendants_total rank).
    - intros q c' Hq Hc'. apply Hrank.
      + right. destruct Hq as [-> | Hq]; [now apply reaches_child |].
        apply reaches_trans with c; [now apply reaches_child |].
        now apply Hto.
      + now apply in_select_children, Hkeys, in_select_children.
    - specialize (Hrank u c (or_introl eq_refl) Hc). lia. }
  exists t', tk', wr', targets.
  split; [| split; [| split; [| split; [| split]]]].
  - unfold scan_entry. apply try_except_run.
    unfold stat. rewrite Hstat.
    erewrite bind_run by reflexivity.
    erewrite bind_run by (unfold get_by_path, query_db; cbn [db];
                          rewrite Htracked; reflexivity).
    unfold t1, tk1, ex', rescanned in Erun.
    destruct (e_validation p) as [vs vm]. cbn [fst snd] in Erun.
    rewrite Hchanged.
    erewrite bind_run by reflexivity.
    cbn [env db ticks uuids writes].
    erewrite bind_run by apply note_validation_run.
    erewrite bind_run by (now apply register_run).
    cbn [child_uids].
    erewrite bind_run by exact Erun.
    reflexivity.
  - exact Erows.
  - intros v. rewrite Htargets, reaches_inv, <- Hchi. split.
    + intros (c & Hc & [-> | Hv]); exists c; auto.
    + intros (c & Hc & [-> | Hv]); exists c; auto.
  - intros k. rewrite Elin. apply Hkeys.
  - rewrite Elen. unfold t1. cbn [registered audit_log].
    unfold insert_audit. rewrite length_app. cbn. lia.
  - rewrite Etz. reflexivity.
Qed.

(** What a pass over a changed, tracked file leaves in the rows. *)
Lemma scan_entry_changed_rows config p stats sz existing
  (rank : string -> nat) (w : World) :
  NoFaults (env w) ->
  e_st_size p = Some sz ->
  get_by_path_in (db w) (e_rel p) = Some existing ->
  hash_differs (hash_sha256 existing) (hash_file config p)
  || negb (Z.eqb (size existing) sz) = true ->
  (forall q c,
      q = uid existing \/ reaches (lineage (db w)) (uid existing) q ->
      In c (select_children q (lineage (db w))) -> rank c < rank q) ->
  rank (uid existing) <= recursion_limit (env w) ->
  exists w',
    scan_entry config p stats w = (inr (incr_updated stats), w')
    /\ select_record (uid existing) (data_records (db w'))
       = Some (row_of (rescanned config (env w) (ticks w) p sz existing))
    /\ (forall c v r0,
          In c (child_uids existing) ->
          v = c \/ reaches (lineage (db w)) c v ->
          select_record v (data_records (db w)) = Some r0 ->
          select_record v (data_records (db w'))
          = Some (set_row_status STALE r0))
    /\ (forall v,
          v <> uid existing ->
          ~ reaches (lineage (db w)) (uid existing) v ->
          select_record v (data_records (db w'))
          = select_record v (data_records (db w)))
    /\ (forall k, In k (map edge_key (lineage (db w'))) <->
                  In k (map edge_key (lineage (db w))))
    /\ length (audit_log (db w'))
       = length (audit_log (db w)) + 1 + length (child_uids existing).
Proof.
  destruct w as [e t tk uu wr]. cbn [env db ticks].
  intros H Hstat Htracked Hchanged Hrank Hdepth.
  destruct (scan_entry_changed config p stats sz existing rank e t tk uu wr
              H Hstat Htracked Hchanged Hrank Hdepth)
    as (t' & tk' & wr' & targets & Erun & Erows & Htargets & Hkeys & Elen
        & _).
  destruct (get_by_path_in_some _ _ _ Htracked) as (_ & _ & _ & Hchi).
  assert (Hacyclic : forall v, reaches (lineage t) (uid existing) v ->
                               v <> uid existing).
  { intros v Hv ->.
    pose proof (rank_descends rank _ _ Hrank _ _ Hv (or_introl eq_refl)).
    lia. }
  assert (Hmem : forall v, mem v targets = true <->
                           reaches (lineage t) (uid existing) v)
    by (intros v; now rewrite mem_In).
  exists (mkWorld e t' tk' uu wr'). cbn [db].
  split; [exact Erun |]. rewrite Erows.
  split; [| split; [| split; [| split]]].
  - rewrite select_record_marked_stale.
    pose proof (select_record_insert_same
                  (row_of (rescanned config e tk p sz existing))
                  (data_records t)) as Hs.
    change (r_uid (row_of (rescanned config e tk p sz existing)))
      with (uid existing) in Hs.
    rewrite Hs. cbn [option_map].
    destruct (mem (uid existing) targets) eqn:Em; [| reflexivity].
    apply Hmem in Em. now destruct (Hacyclic _ Em).
  - intros c v r0 Hc Hv Hr0.
    assert (Hreach : reaches (lineage t) (uid existing) v).
    { apply reaches_inv. exists c. rewrite <- Hchi. auto. }
    rewrite select_record_marked_stale, select_record_insert_other, Hr0
      by (now apply Hacyclic).
    cbn [option_map]. apply Hmem in Hreach. now rewrite Hreach.
  - intros v Hne Hnr.
    rewrite select_record_marked_stale, select_record_insert_other
      by exact Hne.
    destruct (mem v targets) eqn:Em.
    + apply Hmem in Em. contradiction.
    + now destruct (select_record v (data_records t)).
  - exact Hkeys.
  - exact Elen.
Qed.






(** Three passes over the same untouched large file: three updates. *)
Example large_file_three_passes :
  let root := [big_file] in
  let w0 := mkWorld quiet_env big_tables 0 0 0 in
  let '(s1, w1) := scan DEFAULT_CONFIG root w0 in
  let '(s2, w2) := scan DEFAULT_CONFIG root w1 in
  let '(s3, w3) := scan DEFAULT_CONFIG root w2 in
  (s1, s2, s3)
  = (inr (mkStats 0 1 0 1 0), inr (mkStats 0 1 0 0 0),
     inr (mkStats 0 1 0 0 0))
  /\ map (fun r => (r_uid r, r_version r)) (data_records (db w3))
     = [("mode_aaaaaaaaaaaa", 4%Z)].
Proof. vm_compute. split; reflexivity. Qed.

(** ** Registering when the storage engine rejects a write *)

Lemma execute_outcome stmt e t tk uu wr :
  (storage_fault e wr = true
   /\ execute stmt (mkWorld e t tk uu wr)
      = (inl StorageError, mkWorld e t tk uu (S wr)))
  \/ (storage_fault e wr = false
      /\ execute stmt (mkWorld e t tk uu wr)
         = (inr tt, mkWorld e (stmt t) tk uu (S wr))).
Proof.
  unfold execute. cbn. destruct (storage_fault e wr); [left | right]; auto.
Qed.

(** The edge loop of [register] either stops at the first rejected write
    or inserts every parent. *)
Lemma insert_parents_loop_outcome c ps :
  forall e t tk uu wr,
    (exists w' k,
        k < length ps /\ storage_fault e (wr + k) = true
        /\ for_each ps (fun p =>
             now <- _now ;;
             execute (set_lineage (insert_or_ignore_lineage p c now)))
             (mkWorld e t tk uu wr)
           = (inl StorageError, w'))
    \/ ((forall k, k < length ps -> storage_fault e (wr + k) = false)
        /\ for_each ps (fun p =>
             now <- _now ;;
             execute (set_lineage (insert_or_ignore_lineage p c now)))
             (mkWorld e t tk uu wr)
           = (inr tt,
              mkWorld e (set_lineage (insert_parents e tk c ps) t)
                (length ps + tk) uu (length ps + wr))).
Proof.
  induction ps as [| p ps IH]; intros e t tk uu wr.
  - right. split; [intros k Hk; inversion Hk |].
    cbn. unfold ret. now destruct t.
  - cbn [for_each length].
    destruct (execute_outcome
                (set_lineage
                   (insert_or_ignore_lineage p c (isoformat e tk)))
                e t (S tk) uu wr) as [[Hf Ex] | [Hf Ex]].
    + left. eexists. exists 0. rewrite Nat.add_0_r.
      split; [lia |]. split; [exact Hf |].
      apply bind_raise. erewrite bind_run by reflexivity. exact Ex.
    + destruct (IH e (set_lineage
                        (insert_or_ignore_lineage p c (isoformat e tk)) t)
                  (S tk) uu (S wr))
        as [(w' & k & Hk & Hfk & Eloop) | [Hnone Eloop]].
      * left. exists w', (S k). split; [lia |].
        split; [now rewrite Nat.add_succ_r |].
        erewrite bind_run; [exact Eloop |].
        erewrite bind_run by reflexivity. exact Ex.
      * right. split.
        -- intros [| k] Hk; [now rewrite Nat.add_0_r |].
           rewrite Nat.add_succ_r. apply (Hnone k). lia.
        -- erewrite bind_run.
           2:{ erewrite bind_run by reflexivity. exact Ex. }
           rewrite Eloop. unfold set_lineage. cbn.
           do 2 f_equal; lia.
Qed.

(** The transaction of [register] either raises at a rejected write or
    runs to its commit with the row replaced and the edges rewritten. *)
Lemma register_transaction_outcome record e t tk uu wr :
  let n := length (parent_uids record) in
  (exists w' k,
      k <= n + 2 /\ storage_fault e (wr + k) = true
      /\ register_transaction record (mkWorld e t tk uu wr)
         = (inl StorageError, w'))
  \/ ((forall k, k <= n + 2 -> storage_fault e (wr + k) = false)
      /\ register_transaction record (mkWorld e t tk uu wr)
         = (inr tt,
            mkWorld e
              (mkTables
                 (insert_or_replace_record (row_of record)
                    (data_records t))
                 (insert_parents e tk (uid record) (parent_uids record)
                    (delete_lineage_of_child (uid record) (lineage t)))
                 (touch_zones t) (audit_log t))
              (n + tk) uu (n + wr + 3))).
Proof.
  intros n. unfold register_transaction.
  destruct (execute_outcome
              (set_data_records (insert_or_replace_record (row_of record)))
              e t tk uu wr) as [[Hf0 E0] | [Hf0 E0]].
  { left. eexists. exists 0. rewrite Nat.add_0_r.
    split; [lia |]. split; [exact Hf0 |]. exact (bind_raise _ _ _ _ _ E0). }
  rewrite (bind_run _ _ _ _ _ E0).
  destruct (execute_outcome
              (set_lineage (delete_lineage_of_child (uid record)))
              e (set_data_records
                   (insert_or_replace_record (row_of record)) t)
              tk uu (S wr)) as [[Hf1 E1] | [Hf1 E1]].
  { left. eexists. exists 1. rewrite Nat.add_1_r.
    split; [lia |]. split; [exact Hf1 |]. exact (bind_raise _ _ _ _ _ E1). }
  rewrite (bind_run _ _ _ _ _ E1).
  destruct (insert_parents_loop_outcome (uid record) (parent_uids record)
              e (set_lineage (delete_lineage_of_child (uid record))
                   (set_data_records
                      (insert_or_replace_record (row_of record)) t))
              tk uu (S (S wr)))
    as [(w' & k & Hk & Hfk & Eloop) | [Hnone Eloop]].
  { left. exists w', (S (S k)). fold n in Hk. split; [lia |].
    split; [now rewrite !Nat.add_succ_r in * |].
    exact (bind_raise _ _ _ _ _ Eloop). }
  rewrite (bind_run _ _ _ _ _ Eloop). fold n. unfold commit.
  destruct (execute_outcome (fun t => t) e
              (set_lineage
                 (insert_parents e tk (uid record) (parent_uids record))
                 (set_lineage (delete_lineage_of_child (uid record))
                    (set_data_records
                       (insert_or_replace_record (row_of record)) t)))
              (n + tk) uu (n + S (S wr))) as [[Hf2 E2] | [Hf2 E2]].
  { left. eexists. exists (n + 2).
    split; [lia |]. split; [| exact E2].
    now replace (wr + (n + 2)) with (n + S (S wr)) by lia. }
  right. split.
  - intros k Hk.
    destruct k as [| [| k]];
      [now rewrite Nat.add_0_r | now rewrite Nat.add_1_r |].
    destruct (Nat.eq_dec k n) as [-> | Hne].
    + now replace (wr + S (S n)) with (n + S (S wr)) by lia.
    + replace (wr + S (S k)) with (S (S wr) + k) by lia.
      apply Hnone. fold n. lia.
  - rewrite E2. unfold set_lineage, set_data_records. cbn.
    do 2 f_equal. lia.
Qed.

Lemma register_unfold record :
  register record
  = (with_connection (register_transaction record) ;;
     _audit "register" (Some (uid record))
       [("path", JStr (path record));
        ("category", JStr (category_value (category record)))] ;;
     ret record).
Proof. reflexivity. Qed.

(** [_audit] writes to the audit log or to nothing. *)
Lemma _audit_tables action target details w :
  data_records (db (snd (_audit action target details w)))
  = data_records (db w)
  /\ lineage (db (snd (_audit action target details w))) = lineage (db w).
Proof.
  destruct w as [e t tk uu wr].
  unfold _audit, with_connection, bind, _now, commit, execute. cbn.
  destruct (storage_fault e wr); cbn; [auto |].
  destruct (storage_fault e (S wr)); cbn; auto.
Qed.

(** C10, as the code has it: when a write of the transaction of
    [register] is rejected (the row replacement, the edge deletion, an
    edge insertion or the commit), [register] raises and every table is
    as it was before the call; and whatever happens, the row replacement
    and the rewriting of the edges are both in the store or both
    absent. *)
Theorem register_transaction_atomic (w : World) (record : DataRecord) :
  (forall k,
      k <= length (parent_uids record) + 2 ->
      storage_fault (env w) (writes w + k) = true ->
      exists w',
        register record w = (inl StorageError, w') /\ db w' = db w)
  /\ (data_records (db (snd (register record w))) = data_records (db w)
      /\ lineage (db (snd (register record w))) = lineage (db w)
      \/ data_records (db (snd (register record w)))
         = insert_or_replace_record (row_of record) (data_records (db w))
         /\ lineage (db (snd (register record w)))
            = insert_parents (env w) (ticks w) (uid record)
                (parent_uids record)
                (delete_lineage_of_child (uid record) (lineage (db w)))).
Proof.
  destruct w as [e t tk uu wr]. cbn [env db ticks writes].
  rewrite register_unfold.
  destruct (register_transaction_outcome record e t tk uu wr)
    as [(w' & k & Hk & Hfk & Etx) | [Hnone Etx]].
  - pose proof (with_connection_raise _ _ _ _ Etx) as Ewc.
    rewrite (bind_raise _ _ _ _ _ Ewc). cbn [snd db with_db].
    split; [| left; split; reflexivity].
    intros _ _ _. eexists. split; reflexivity.
  - split.
    + intros k Hk Hfk. rewrite (Hnone k Hk) in Hfk. discriminate.
    + right.
      pose proof (with_connection_run _ _ _ _ Etx) as Ewc.
      rewrite (bind_run _ _ _ _ _ Ewc).
      match goal with
      | |- context [snd (bind (_audit ?a ?tg ?d) ?k ?W)] =>
          assert (Es : snd (bind (_audit a tg d) k W)
                       = snd (_audit a tg d W))
            by (unfold bind; now destruct (_audit a tg d W) as [[x | x] y]);
          rewrite Es;
          destruct (_audit_tables a tg d W) as [Er El];
          rewrite Er, El
      end.
      split; reflexivity.
Qed.

Lemma register_transaction_atomic_witness :
  exists w',
    register derived_record (mkWorld (fault_at 3) chain_tables 0 0 0)
    = (inl StorageError, w')
    /\ db w' = chain_tables.
Proof.
  destruct (register_transaction_atomic
              (mkWorld (fault_at 3) chain_tables 0 0 0) derived_record)
    as [H _].
  apply (H 3).
  - cbn. lia.
  - reflexivity.
Defined.

(** When it is the audit insertion that the engine rejects, [register]
    raises although the row and the edges are already committed. *)
Lemma register_audit_fault_keeps_changes :
  let w := mkWorld (fault_at 5) chain_tables 0 0 0 in
  fst (register derived_record w) = inl StorageError
  /\ data_records (db (snd (register derived_record w)))
     <> data_records (db w)
  /\ lineage (db (snd (register derived_record w))) <> lineage (db w).
Proof. vm_compute. repeat split; discriminate. Qed.

(** ** The supervised listener *)

(** C4 on the code: the loop tests [_server_enabled] before its backoff
    wait and only [_stop_event] after it. When [stop()] falls into the
    wait, the listener is torn down and disabled, and the loop then binds
    and starts listener 1 all the same: it is serving, with
    [_server_enabled] false, and neither [start()] nor [restart()] was
    called. *)
Theorem supervisor_rebinds_after_stop :
  let stopped :=
    Supervisor.run Supervisor.initial (firstn 4 stop_during_backoff) in
  let final := Supervisor.run Supervisor.initial stop_during_backoff in
  forallb not_a_start stop_during_backoff = true
  /\ Supervisor._server_enabled stopped = false
  /\ Supervisor.server stopped = None
  /\ Supervisor.alive stopped = []
  /\ Supervisor.bound stopped = []
  /\ Supervisor.pc stopped = Supervisor.BackingOff
  /\ Supervisor._server_enabled final = false
  /\ Supervisor._stop_event final = false
  /\ Supervisor.server final = Some 1
  /\ Supervisor.server_thread final = Some 1
  /\ Supervisor.alive final = [1]
  /\ Supervisor.bound final = [1]
  /\ Supervisor.started_by_supervisor final = [1].
Proof. vm_compute. repeat split. Qed.

(** Outside the backoff wait the flag is honoured: from a disabled state
    whose supervisor is not in its wait, no sequence of events without
    [start()] and [restart()] creates a listener. *)
Lemma supervisor_honours_stop_outside_backoff evs :
  forall st,
    Supervisor._server_enabled st = false ->
    Supervisor.pc st <> Supervisor.BackingOff ->
    forallb not_a_start evs = true ->
    Supervisor.created (Supervisor.run st evs) = Supervisor.created st
    /\ Supervisor.started_by_supervisor (Supervisor.run st evs)
       = Supervisor.started_by_supervisor st.
Proof.
  induction evs as [| ev evs IH]; intros st Hoff Hpc Hevs; [now split |].
  cbn [forallb] in Hevs. apply andb_true_iff in Hevs as [Hev Hevs].
  unfold Supervisor.run in *. cbn [fold_left].
  assert (Hstep :
    Supervisor._server_enabled (Supervisor.step st ev) = false
    /\ Supervisor.pc (Supervisor.step st ev) <> Supervisor.BackingOff
    /\ Supervisor.created (Supervisor.step st ev) = Supervisor.created st
    /\ Supervisor.started_by_supervisor (Supervisor.step st ev)
       = Supervisor.started_by_supervisor st).
  { destruct st as [sev en srv thr al bd cr dl p sb].
    cbn in Hoff, Hpc. subst en.
    destruct ev; try discriminate Hev.
    - unfold Supervisor.step, Supervisor.supervisor_step. cbn.
      destruct p as [| t | |]; [| | now destruct Hpc |];
        destruct sev; cbn; try (repeat split; discriminate).
      destruct (existsb (Nat.eqb t) al); cbn; repeat split; discriminate.
    - cbn. repeat split; assumption.
    - unfold Supervisor.step, Supervisor.stop_http_server,
        Supervisor.tear_down. cbn.
      destruct srv; cbn; repeat split; assumption.
    - unfold Supervisor.step, Supervisor.stop, Supervisor.tear_down. cbn.
      destruct srv; cbn; repeat split; assumption. }
  destruct Hstep as (Hoff' & Hpc' & Hcr & Hsb).
  destruct (IH _ Hoff' Hpc' Hevs) as [IH1 IH2].
  split; congruence.
Qed.

(* ===================================================================== *)
(** * Further properties of the code *)
(* ===================================================================== *)

(** ** What persists through every operation *)

Section Preserved.

Variable I : Tables -> Prop.
Hypothesis Hstmts : statements_keep I.

Lemma preserves_ret {A} (a : A) : preserves I (ret a).
Proof. intros w H. exact H. Qed.

Lemma preserves_raise {A} (e : Exn) : preserves I (@raise A e).
Proof. intros w H. exact H. Qed.

Lemma preserves_bind {A B} (c : M A) (k : A -> M B) :
  preserves I c -> (forall a, preserves I (k a)) -> preserves I (bind c k).
Proof.
  intros Hc Hk w H. unfold bind. specialize (Hc w H).
  destruct (c w) as [[ex | a] w']; cbn in *; [assumption |].
  now apply Hk.
Qed.

Lemma preserves_try_except {A} (body : M A) (handler : Exn -> M A) :
  preserves I body -> (forall e, preserves I (handler e)) ->
  preserves I (try_except body handler).
Proof.
  intros Hb Hh w H. unfold try_except. specialize (Hb w H).
  destruct (body w) as [[ex | a] w']; cbn in *; [| assumption].
  now apply Hh.
Qed.

(** A rolled-back transaction leaves the tables it found. *)
Lemma preserves_with_connection {A} (body : M A) :
  preserves I body -> preserves I (with_connection body).
Proof.
  intros Hb w H. unfold with_connection. specialize (Hb w H).
  destruct (body w) as [[ex | a] w']; cbn in *; assumption.
Qed.

Lemma preserves_execute stmt :
  stmt_preserves I stmt -> preserves I (execute stmt).
Proof.
  intros Hs w H. unfold execute.
  destruct (storage_fault (env w) (writes w)); cbn; [assumption |].
  now apply Hs.
Qed.

Lemma preserves_commit : preserves I commit.
Proof. apply preserves_execute. intros t H. exact H. Qed.

Lemma preserves__now : preserves I _now.
Proof. intros w H. exact H. Qed.

Lemma preserves_query_db {A} (q : Tables -> A) : preserves I (query_db q).
Proof. intros w H. exact H. Qed.

Lemma preserves_generate_uid prefix : preserves I (generate_uid prefix).
Proof. intros w H. exact H. Qed.

Lemma preserves_for_each {A} (xs : list A) (body : A -> M unit) :
  (forall x, preserves I (body x)) -> preserves I (for_each xs body).
Proof.
  intros H. induction xs as [| x xs IH]; cbn [for_each].
  - apply preserves_ret.
  - apply preserves_bind; auto.
Qed.

Lemma preserves_for_each_acc {A S} (xs : list A) (body : A -> S -> M S) :
  (forall x s, preserves I (body x s)) ->
  forall s, preserves I (for_each_acc xs body s).
Proof.
  intros H. induction xs as [| x xs IH]; intros s; cbn [for_each_acc].
  - apply preserves_ret.
  - apply preserves_bind; auto.
Qed.

Lemma preserves__audit action target details :
  preserves I (_audit action target details).
Proof.
  unfold _audit. apply preserves_with_connection.
  apply preserves_bind; [apply preserves__now | intros now].
  apply preserves_bind; [| intros _; apply preserves_commit].
  apply preserves_execute. apply Hstmts.
Qed.

Lemma preserves_register record : preserves I (register record).
Proof.
  unfold register.
  apply preserves_bind; [| intros _].
  - apply preserves_with_connection.
    apply preserves_bind; [apply preserves_execute, Hstmts | intros _].
    apply preserves_bind; [apply preserves_execute, Hstmts | intros _].
    apply preserves_bind; [| intros _; apply preserves_commit].
    apply preserves_for_each. intros p.
    apply preserves_bind; [apply preserves__now | intros now].
    apply preserves_execute, Hstmts.
  - apply preserves_bind; [apply preserves__audit | intros _].
    apply preserves_ret.
Qed.

Lemma preserves_mark_stale u : preserves I (mark_stale u).
Proof.
  unfold mark_stale.
  apply preserves_bind; [| intros ds; apply preserves__audit].
  apply preserves_with_connection.
  apply preserves_bind; [apply preserves_execute, Hstmts | intros _].
  apply preserves_bind; [| intros ds].
  - intros w H. now destruct (_get_descendants _ _ _).
  - apply preserves_bind; [| intros _].
    + apply preserves_for_each. intros d. apply preserves_execute, Hstmts.
    + apply preserves_bind; [apply preserves_commit | intros _].
      apply preserves_ret.
Qed.

Lemma preserves_delete u : preserves I (delete u).
Proof.
  unfold delete.
  apply preserves_bind; [| intros _; apply preserves__audit].
  apply preserves_with_connection.
  apply preserves_bind; [apply preserves_execute, Hstmts | intros _].
  apply preserves_bind; [apply preserves_execute, Hstmts | intros _].
  apply preserves_commit.
Qed.

Lemma preserves_add_touch_zone zone : preserves I (add_touch_zone zone).
Proof.
  unfold add_touch_zone. apply preserves_with_connection.
  apply preserves_bind; [apply preserves_execute, Hstmts | intros _].
  apply preserves_commit.
Qed.

Lemma preserves_note_validation st messages md :
  preserves I (note_validation st messages md).
Proof.
  destruct messages; cbn [note_validation]; [apply preserves_ret |].
  apply preserves_bind; [apply preserves__now | intros now].
  apply preserves_ret.
Qed.

Lemma preserves_scan_entry config p stats :
  preserves I (scan_entry config p stats).
Proof.
  unfold scan_entry.
  apply preserves_try_except; [| intros e; apply preserves_ret].
  apply preserves_bind; [| intros sz].
  { unfold stat. destruct (e_st_size p);
      [apply preserves_ret | apply preserves_raise]. }
  apply preserves_bind; [apply preserves_query_db | intros existing].
  destruct (e_validation p) as [vs vm].
  destruct existing as [existing |].
  - destruct (_ || _); [| apply preserves_ret].
    apply preserves_bind; [apply preserves__now | intros modified].
    apply preserves_bind; [apply preserves_note_validation | intros md].
    apply preserves_bind; [apply preserves_register | intros _].
    apply preserves_bind; [| intros _; apply preserves_ret].
    apply preserves_for_each. intros c. apply preserves_mark_stale.
  - apply preserves_bind; [apply preserves_generate_uid | intros u].
    apply preserves_bind; [apply preserves__now | intros now].
    apply preserves_bind; [apply preserves_note_validation | intros md].
    apply preserves_bind; [apply preserves_register | intros _].
    apply preserves_ret.
Qed.

Lemma preserves_scan config root : preserves I (scan config root).
Proof.
  unfold scan.
  apply preserves_bind; [| intros stats].
  { apply preserves_for_each_acc. intros p s. apply preserves_scan_entry. }
  apply preserves_bind; [apply preserves_query_db | intros records].
  apply preserves_for_each_acc. intros r s.
  destruct (seen _ _); [apply preserves_ret |].
  apply preserves_bind; [apply preserves_delete | intros _].
  apply preserves_ret.
Qed.

End Preserved.

Lemma NoDup_map_filter {A B} (f : A -> B) (g : A -> bool) (l : list A) :
  NoDup (map f l) -> NoDup (map f (filter g l)).
Proof.
  induction l as [| x l IH]; cbn; intros H; [constructor |].
  inversion H as [| y l' Hnotin Hnd]; subst.
  destruct (g x); [| now apply IH].
  cbn. constructor; [| now apply IH].
  intros Hin. apply Hnotin.
  apply in_map_iff in Hin as (z & E & Hz).
  apply filter_In in Hz as [Hz _]. rewrite <- E. now apply in_map.
Qed.

Lemma NoDup_snoc {A} (l : list A) (x : A) :
  NoDup l -> ~ In x l -> NoDup (l ++ [x]).
Proof.
  intros Hnd Hx. apply Permutation_NoDup with (l := x :: l).
  - apply Permutation_cons_append.
  - now constructor.
Qed.

Lemma map_r_uid_update_status s u rows :
  map r_uid (update_status s u rows) = map r_uid rows.
Proof.
  unfold update_status. rewrite map_map. apply map_ext.
  intros r. now destruct (String.eqb (r_uid r) u).
Qed.

Lemma statements_keep_unique_keys : statements_keep unique_keys.
Proof.
  unfold statements_keep, stmt_preserves, unique_keys.
  repeat split; intros; cbn [set_data_records set_lineage set_audit_log
                               set_touch_zones data_records lineage];
    try tauto.
  - destruct H as [H _]. unfold insert_or_replace_record.
    rewrite map_app. cbn [map]. apply NoDup_snoc.
    + now apply NoDup_map_filter.
    + intros Hin. apply in_map_iff in Hin as (x & E & Hx).
      apply filter_In in Hx as [_ Hx]. rewrite E in Hx.
      now rewrite String.eqb_refl in Hx.
  - destruct H as [H _]. now apply NoDup_map_filter.
  - destruct H as [H _]. now rewrite map_r_uid_update_status.
  - destruct H as [_ H]. now apply NoDup_map_filter.
  - destruct H as [_ H]. now apply NoDup_map_filter.
  - destruct H as [_ H]. unfold insert_or_ignore_lineage.
    destruct (existsb (same_edge p c) (lineage t)) eqn:Ex; [assumption |].
    rewrite map_app. cbn [map]. apply NoDup_snoc; [assumption |].
    intros Hin. apply in_map_iff in Hin as (x & E & Hx).
    assert (Et : existsb (same_edge p c) (lineage t) = true).
    { apply existsb_exists. exists x. split; [assumption |].
      unfold same_edge. unfold edge_key in E. cbn in E.
      injection E as -> ->. now rewrite !String.eqb_refl. }
    congruence.
Qed.

Lemma statements_keep_audit_extends log :
  statements_keep (audit_extends log).
Proof.
  unfold statements_keep, stmt_preserves, audit_extends.
  repeat split; intros; cbn [set_data_records set_lineage set_audit_log
                               set_touch_zones audit_log];
    try assumption.
  destruct H as [more E]. exists (more ++
    [mkAuditRow (S (length (audit_log t))) now action target "system"
       details]).
  unfold insert_audit. now rewrite E at 1; rewrite <- app_assoc.
Qed.

(** X1: the registry never leaves two rows with one uid, nor two edges
    with one (parent, child): a store whose primary keys are unique keeps
    them unique through [register], [mark_stale], [delete],
    [add_touch_zone] and a whole [scan], however they end - normally, by a
    rejected write or by [RecursionError]. *)
Theorem primary_keys_stay_unique (w : World)
  (Hkeys : unique_keys (db w)) :
  (forall record, unique_keys (db (snd (register record w))))
  /\ (forall u, unique_keys (db (snd (mark_stale u w))))
  /\ (forall u, unique_keys (db (snd (delete u w))))
  /\ (forall zone, unique_keys (db (snd (add_touch_zone zone w))))
  /\ (forall config root, unique_keys (db (snd (scan config root w)))).
Proof.
  pose proof statements_keep_unique_keys as Hs.
  repeat split; intros.
  - now apply (preserves_register _ Hs).
  - now apply (preserves_register _ Hs).
  - now apply (preserves_mark_stale _ Hs).
  - now apply (preserves_mark_stale _ Hs).
  - now apply (preserves_delete _ Hs).
  - now apply (preserves_delete _ Hs).
  - now apply (preserves_add_touch_zone _ Hs).
  - now apply (preserves_add_touch_zone _ Hs).
  - now apply (preserves_scan _ Hs).
  - now apply (preserves_scan _ Hs).
Qed.

(** X2: the audit log is append-only. Whatever [register], [mark_stale],
    [delete] or a whole [scan] do, and however they end, the log they
    leave begins with the log they found. *)
Theorem audit_log_append_only (w : World) :
  (forall record,
      audit_extends (audit_log (db w)) (db (snd (register record w))))
  /\ (forall u,
         audit_extends (audit_log (db w)) (db (snd (mark_stale u w))))
  /\ (forall u, audit_extends (audit_log (db w)) (db (snd (delete u w))))
  /\ (forall config root,
         audit_extends (audit_log (db w)) (db (snd (scan config root w)))).
Proof.
  pose proof (statements_keep_audit_extends (audit_log (db w))) as Hs.
  assert (H0 : audit_extends (audit_log (db w)) (db w))
    by (exists []; now rewrite app_nil_r).
  repeat split; intros.
  - now apply (preserves_register _ Hs).
  - now apply (preserves_mark_stale _ Hs).
  - now apply (preserves_delete _ Hs).
  - now apply (preserves_scan _ Hs).
Qed.

Ltac solve_NoDup :=
  repeat constructor; cbn;
  repeat match goal with
         | |- ~ _ => intros ?H
         | H : _ \/ _ |- _ => destruct H
         | H : False |- _ => destruct H
         | H : _ = _ |- _ => discriminate H
         end.

Lemma unique_keys_chain : unique_keys chain_tables.
Proof. split; cbn; solve_NoDup. Defined.

Lemma primary_keys_stay_unique_witness :
  unique_keys chain_tables
  /\ unique_keys
       (db (snd (scan DEFAULT_CONFIG [edited_file]
                   (mkWorld quiet_env chain_tables 0 0 0))))
  /\ unique_keys
       (db (snd (register derived_record
                   (mkWorld (fault_at 3) chain_tables 0 0 0)))).
Proof.
  split; [exact unique_keys_chain |]. split.
  - apply (primary_keys_stay_unique (mkWorld quiet_env chain_tables 0 0 0)
             unique_keys_chain).
  - apply (primary_keys_stay_unique (mkWorld (fault_at 3) chain_tables 0 0 0)
             unique_keys_chain).
Defined.

(** ** Registering and reading back *)

(** X3: a record read back after [register] carries the row as given;
    its parents are those given, each once; its children are the records
    that named it as a parent before, and itself if it names itself. *)
Theorem register_then_get (w : World) (record : DataRecord)
  (Hfaults : NoFaults (env w)) :
  exists w' stored,
    register record w = (inr record, w')
    /\ get (uid record) w' = (inr (Some stored), w')
    /\ row_of stored = row_of record
    /\ NoDup (parent_uids stored)
    /\ (forall p, In p (parent_uids stored) <-> In p (parent_uids record))
    /\ (forall c,
          In c (child_uids stored) <->
          (In c (select_children (uid record) (lineage (db w)))
           /\ c <> uid record)
          \/ (c = uid record /\ In (uid record) (parent_uids record))).
Proof.
  destruct w as [e t tk uu wr]. cbn [env db] in *.
  set (u := uid record).
  set (rest := delete_lineage_of_child u (lineage t)).
  destruct (insert_parents_distinct u (parent_uids record) e tk rest [])
    as (mine & Emine & Hmine & Hnd);
    [apply delete_lineage_of_child_clean | intros x [] | constructor |].
  rewrite app_nil_r in Emine.
  assert (Hrest : forall x, In x rest -> child_uid x <> u)
    by apply delete_lineage_of_child_clean.
  pose proof (select_record_insert_same (row_of record) (data_records t))
    as Hrow.
  change (r_uid (row_of record)) with u in Hrow.
  eexists. eexists.
  split; [now apply register_run |].
  split.
  { unfold get, query_db, get_in.
    cbn [db registered data_records lineage]. fold u. rewrite Hrow.
    reflexivity. }
  cbn [row_of uid path category status size hash_sha256 created_at
       modified_at version metadata schema_uid parent_uids child_uids
       r_uid r_path r_category r_status r_size r_hash_sha256 r_created_at
       r_modified_at r_version r_metadata r_schema_uid].
  fold u. fold rest.
  split; [reflexivity |].
  split; [rewrite Emine, select_parents_split by assumption; exact Hnd |].
  split.
  - intros p. rewrite in_select_parents, in_insert_parents. split.
    + intros [H | (q & Hq & E)]; [| now injection E as ->].
      apply in_map_iff in H as (x & E & Hx). apply Hrest in Hx.
      unfold edge_key in E. injection E as _ E. contradiction.
    + intros Hp. right. eauto.
  - intros c. rewrite in_select_children, in_insert_parents. split.
    + intros [H | (q & Hq & E)].
      * left. apply in_map_iff in H as (x & E & Hx).
        pose proof (Hrest x Hx) as Hne.
        unfold rest, delete_lineage_of_child in Hx.
        apply filter_In in Hx as [Hx _].
        unfold edge_key in E. injection E as Ep Ec. split.
        -- apply in_select_children, in_map_iff. exists x.
           unfold edge_key. split; [congruence | assumption].
        -- congruence.
      * right. injection E as <- ->. now split.
    + intros [[Hc Hne] | [-> Hs]].
      * left. apply in_select_children, in_map_iff in Hc as (x & E & Hx).
        apply in_map_iff. exists x. split; [assumption |].
        unfold rest, delete_lineage_of_child. apply filter_In.
        split; [assumption |]. apply negb_true_iff, String.eqb_neq.
        unfold edge_key in E. injection E as _ E. congruence.
      * right. exists u. now split.
Qed.

Lemma register_then_get_witness :
  exists w' stored,
    register derived_record (mkWorld quiet_env chain_tables 0 0 0)
    = (inr derived_record, w')
    /\ get "d" w' = (inr (Some stored), w')
    /\ stored = derived_record.
Proof.
  destruct (register_then_get (mkWorld quiet_env chain_tables 0 0 0)
              derived_record)
    as (w' & stored & H1 & H2 & _).
  - intros n. reflexivity.
  - exists w', stored. repeat split; try assumption.
    vm_compute in H1. injection H1 as <-.
    vm_compute in H2. injection H2 as <-. reflexivity.
Defined.

(** X4: [register] rewrites exactly the edges into the record: afterwards
    the edges are those that led elsewhere before together with one edge
    from each parent given; every other row is as it was and one
    [register] entry is audited. *)
Theorem register_replaces_parent_edges (w : World) (record : DataRecord)
  (Hfaults : NoFaults (env w)) :
  exists w',
    register record w = (inr record, w')
    /\ (forall p c,
          In (p, c) (map edge_key (lineage (db w'))) <->
          (In (p, c) (map edge_key (lineage (db w))) /\ c <> uid record)
          \/ (c = uid record /\ In p (parent_uids record)))
    /\ (forall v, v <> uid record ->
                  select_record v (data_records (db w'))
                  = select_record v (data_records (db w)))
    /\ (exists entry,
          audit_log (db w') = audit_log (db w) ++ [entry]
          /\ a_action entry = "register"
          /\ a_target_uid entry = Some (uid record))
    /\ touch_zones (db w') = touch_zones (db w).
Proof.
  destruct w as [e t tk uu wr]. cbn [env db] in *.
  eexists. split; [now apply register_run |].
  cbn [db registered data_records lineage audit_log touch_zones].
  split; [| split; [| split; [| reflexivity]]].
  - intros p c. rewrite in_insert_parents. split.
    + intros [H | (q & Hq & E)].
      * left. apply in_map_iff in H as (x & E & Hx).
        pose proof (delete_lineage_of_child_clean _ _ _ Hx) as Hne.
        unfold delete_lineage_of_child in Hx.
        apply filter_In in Hx as [Hx _].
        unfold edge_key in E. injection E as Ep Ec. split.
        -- apply in_map_iff. exists x. unfold edge_key.
           split; [congruence | assumption].
        -- congruence.
      * right. injection E as -> ->. now split.
    + intros [[H Hne] | [-> Hp]].
      * left. apply in_map_iff in H as (x & E & Hx).
        apply in_map_iff. exists x. split; [assumption |].
        unfold delete_lineage_of_child. apply filter_In.
        split; [assumption |]. apply negb_true_iff, String.eqb_neq.
        unfold edge_key in E. injection E as _ E. congruence.
      * right. exists p. now split.
  - intros v Hne. now apply select_record_insert_other.
  - eexists. repeat split.
Qed.

Lemma register_replaces_parent_edges_witness :
  exists w',
    register
      (mkDataRecord "c" "c.json" DERIVED VALID 10 "e3b0c442" "t0" "t1" 2
         ["a"] [] [] None)
      (mkWorld quiet_env chain_tables 0 0 0)
    = (inr (mkDataRecord "c" "c.json" DERIVED VALID 10 "e3b0c442" "t0" "t1"
              2 ["a"] [] [] None), w')
    /\ map edge_key (lineage (db w')) = [("a", "b"); ("a", "c")].
Proof.
  destruct (register_replaces_parent_edges
              (mkWorld quiet_env chain_tables 0 0 0)
              (mkDataRecord "c" "c.json" DERIVED VALID 10 "e3b0c442" "t0"
                 "t1" 2 ["a"] [] [] None))
    as (w' & H1 & _).
  - intros n. reflexivity.
  - exists w'. split; [exact H1 |].
    vm_compute in H1. injection H1 as <-. reflexivity.
Defined.

(** ** Deleting and marking stale *)

(** X5: deleting a uid that has no record is not an error: the rows stay
    as they are, edges that still mention the uid go, and the call is
    audited like any other. *)
Theorem delete_missing_uid (w : World) (u : string)
  (Hfaults : NoFaults (env w))
  (Hmissing : select_record u (data_records (db w)) = None) :
  exists w' entry,
    delete u w = (inr tt, w')
    /\ data_records (db w') = data_records (db w)
    /\ lineage (db w') = delete_lineage_touching u (lineage (db w))
    /\ audit_log (db w') = audit_log (db w) ++ [entry]
    /\ a_action entry = "delete"
    /\ a_target_uid entry = Some u.
Proof.
  destruct w as [e t tk uu wr]. cbn [env db] in *.
  eexists. eexists. split; [now apply delete_run |].
  cbn [db deleted data_records lineage audit_log].
  repeat split.
  unfold delete_record. apply filter_keep_all. intros r Hr.
  unfold select_record in Hmissing.
  apply (find_none _ _ Hmissing) in Hr. now rewrite Hr.
Qed.

Lemma delete_missing_uid_witness :
  exists w',
    delete "nobody" (mkWorld quiet_env chain_tables 0 0 0) = (inr tt, w')
    /\ data_records (db w') = data_records chain_tables
    /\ lineage (db w') = lineage chain_tables
    /\ length (audit_log (db w')) = 1.
Proof.
  destruct (delete_missing_uid (mkWorld quiet_env chain_tables 0 0 0)
              "nobody")
    as (w' & entry & H1 & H2 & _).
  - intros n. reflexivity.
  - reflexivity.
  - exists w'. split; [exact H1 |]. split; [exact H2 |].
    vm_compute in H1. injection H1 as <-. split; reflexivity.
Defined.

Lemma marked_stale_status_only targets rows :
  map (set_row_status VALID) (marked_stale targets rows)
  = map (set_row_status VALID) rows.
Proof.
  unfold marked_stale. rewrite map_map. apply map_ext.
  intros r. now destruct (mem (r_uid r) targets).
Qed.

(** X6: [mark_stale] is all or nothing and writes statuses only. Either
    the walk exceeds the recursion limit, and then the call raises
    [RecursionError] with every table as before (the update of [uid]
    itself is rolled back, nothing is audited); or it returns, and then
    the rows differ from the old ones in their status at most, a changed
    status being [stale], with the edges untouched. *)
Theorem mark_stale_all_or_nothing (w : World) (u : string)
  (Hfaults : NoFaults (env w)) :
  (exists w',
      mark_stale u w = (inl RecursionError, w') /\ db w' = db w)
  \/ (exists w',
         mark_stale u w = (inr tt, w')
         /\ map (set_row_status VALID) (data_records (db w'))
            = map (set_row_status VALID) (data_records (db w))
         /\ (forall v r r',
               select_record v (data_records (db w)) = Some r ->
               select_record v (data_records (db w')) = Some r' ->
               r' = r \/ r' = set_row_status STALE r)
         /\ lineage (db w') = lineage (db w)
         /\ touch_zones (db w') = touch_zones (db w)
         /\ length (audit_log (db w')) = S (length (audit_log (db w)))).
Proof.
  destruct w as [e t tk uu wr]. cbn [env db] in *.
  destruct (_get_descendants (recursion_limit e) t u) as [ds |] eqn:Eds.
  - right. eexists.
    split; [exact (mark_stale_run u ds e t tk uu wr Hfaults Eds) |].
    cbn [db staled data_records lineage touch_zones audit_log].
    split; [apply marked_stale_status_only |].
    split; [| split; [reflexivity | split; [reflexivity |]]].
    + intros v r r' Hr Hr'.
      rewrite select_record_marked_stale, Hr in Hr'.
      cbn [option_map] in Hr'. injection Hr' as <-.
      match goal with
      | |- context [if ?b then _ else _] => destruct b
      end; auto.
    + unfold insert_audit. rewrite length_app. cbn. lia.
  - left. eexists.
    split; [exact (mark_stale_raise u e t tk uu wr Hfaults Eds) |].
    reflexivity.
Qed.

Lemma mark_stale_all_or_nothing_witness :
  (exists w',
      mark_stale "a" (mkWorld quiet_env cyclic_tables 0 0 0)
      = (inl RecursionError, w')
      /\ db w' = cyclic_tables)
  /\ (exists w',
         mark_stale "b" (mkWorld quiet_env chain_tables 0 0 0)
         = (inr tt, w')
         /\ map r_status (data_records (db w'))
            = [VALID; STALE; STALE; VALID]).
Proof.
  split.
  - destruct (mark_stale_all_or_nothing
                (mkWorld quiet_env cyclic_tables 0 0 0) "a")
      as [(w' & H1 & H2) | (w' & H1 & _)].
    + intros n. reflexivity.
    + exists w'. split; assumption.
    + vm_compute in H1. discriminate H1.
  - destruct (mark_stale_all_or_nothing
                (mkWorld quiet_env chain_tables 0 0 0) "b")
      as [(w' & H1 & _) | (w' & H1 & _)].
    + intros n. reflexivity.
    + vm_compute in H1. discriminate H1.
    + exists w'. split; [exact H1 |].
      vm_compute in H1. injection H1 as <-. reflexivity.
Defined.

Lemma marked_stale_same_members l l' rows :
  (forall v, mem v l = mem v l') ->
  marked_stale l rows = marked_stale l' rows.
Proof.
  intros H. unfold marked_stale. apply map_ext. intros r. now rewrite H.
Qed.

(** X7: marking stale twice is marking stale once: the second call finds
    the same descendants and leaves every row as the first call left it;
    only the audit log grows, by one more entry. *)
Theorem mark_stale_twice (w w1 : World) (u : string)
  (Hfaults : NoFaults (env w))
  (Hfirst : mark_stale u w = (inr tt, w1)) :
  exists w2 entry,
    mark_stale u w1 = (inr tt, w2)
    /\ data_records (db w2) = data_records (db w1)
    /\ lineage (db w2) = lineage (db w1)
    /\ audit_log (db w2) = audit_log (db w1) ++ [entry]
    /\ a_action entry = "mark_stale".
Proof.
  destruct w as [e t tk uu wr]. cbn [env] in Hfaults.
  destruct (_get_descendants (recursion_limit e) t u) as [ds |] eqn:Eds.
  - rewrite (mark_stale_run u ds e t tk uu wr Hfaults Eds) in Hfirst.
    injection Hfirst as <-.
    assert (Eds' : _get_descendants (recursion_limit e)
                     (staled e tk u ds t) u = Some ds)
      by (rewrite <- Eds; now apply _get_descendants_lineage).
    eexists. eexists.
    split; [exact (mark_stale_run u ds e _ _ _ _ Hfaults Eds') |].
    cbn [db staled data_records lineage audit_log].
    repeat split.
    rewrite marked_stale_twice. apply marked_stale_same_members.
    intros v. rewrite mem_app. now destruct (mem v (u :: ds)).
  - rewrite (mark_stale_raise u e t tk uu wr Hfaults Eds) in Hfirst.
    discriminate.
Qed.

Lemma mark_stale_twice_witness :
  exists w1 w2,
    mark_stale "a" (mkWorld quiet_env diamond_tables 0 0 0) = (inr tt, w1)
    /\ mark_stale "a" w1 = (inr tt, w2)
    /\ data_records (db w2) = data_records (db w1)
    /\ length (audit_log (db w2)) = 2.
Proof.
  assert (H1 : mark_stale "a" (mkWorld quiet_env diamond_tables 0 0 0)
               = (inr tt,
                  snd (mark_stale "a"
                         (mkWorld quiet_env diamond_tables 0 0 0))))
    by (vm_compute; reflexivity).
  destruct (mark_stale_twice (mkWorld quiet_env diamond_tables 0 0 0) _ "a"
              (fun n => eq_refl) H1)
    as (w2 & entry & H2 & H3 & _ & H4 & _).
  eexists. exists w2. split; [exact H1 |]. split; [exact H2 |].
  split; [exact H3 |]. rewrite H4, length_app. reflexivity.
Defined.

(** ** Queries *)

Lemma sql_limit_length {A} (limit : Z) (l : list A) :
  (0 <= limit)%Z -> (Z.of_nat (length (sql_limit limit l)) <= limit)%Z.
Proof.
  intros H. unfold sql_limit.
  destruct (limit <? 0)%Z eqn:E; [apply Z.ltb_lt in E; lia |].
  pose proof (firstn_le_length (Z.to_nat limit) l). lia.
Qed.

Lemma sql_limit_map {A B} (f : A -> B) (limit : Z) (l : list A) :
  sql_limit limit (map f l) = map f (sql_limit limit l).
Proof.
  unfold sql_limit. destruct (limit <? 0)%Z; [reflexivity |].
  apply firstn_map.
Qed.

Lemma sql_limit_incl {A} (limit : Z) (l : list A) x :
  In x (sql_limit limit l) -> In x l.
Proof.
  unfold sql_limit. destruct (limit <? 0)%Z; [auto |].
  intros H. rewrite <- (firstn_skipn (Z.to_nat limit) l).
  apply in_or_app. now left.
Qed.

Lemma flat_map_at_most_one {A B} (f : A -> list B) (l : list A) :
  (forall x, length (f x) <= 1) -> length (flat_map f l) <= length l.
Proof.
  intros H. induction l as [| x l IH]; cbn; [lia |].
  rewrite length_app. specialize (H x). lia.
Qed.

(** X8: [query] never returns more records than its limit asks for,
    whatever the filters and however many rows match. *)
Theorem query_respects_limit (t : Tables) (category : option DataCategory)
  (status : option DataStatus) (path_prefix : option string) (limit : Z)
  (Hlimit : (0 <= limit)%Z) :
  (Z.of_nat (length (query_in t category status path_prefix limit))
   <= limit)%Z.
Proof.
  unfold query_in.
  pose proof (sql_limit_length limit
                (map r_uid
                   (filter (query_condition category status path_prefix)
                      (data_records t))) Hlimit) as Hl.
  match goal with
  | |- (Z.of_nat (length (flat_map ?f ?l)) <= _)%Z =>
      pose proof (flat_map_at_most_one f l) as Hf
  end.
  assert (Hone : forall u,
             length (match get_in t u with
                     | Some r => match get_in t u with
                                 | Some _ => [r]
                                 | None => []
                                 end
                     | None => []
                     end) <= 1)
    by (intros u; destruct (get_in t u); cbn; lia).
  specialize (Hf Hone). lia.
Qed.

Lemma query_respects_limit_witness :
  (Z.of_nat (length (query_in chain_tables None (Some VALID) None 2))
   <= 2)%Z
  /\ map uid (query_in chain_tables None (Some VALID) None 2) = ["a"; "b"].
Proof.
  split; [| reflexivity].
  apply query_respects_limit. lia.
Defined.

Lemma select_record_unique rows row :
  NoDup (map r_uid rows) -> In row rows ->
  select_record (r_uid row) rows = Some row.
Proof.
  unfold select_record.
  induction rows as [| r rows IH]; intros Hnd Hin; [destruct Hin |].
  cbn [map] in Hnd. inversion Hnd as [| x l Hnotin Hnd']; subst.
  cbn [find]. destruct Hin as [-> | Hin].
  - now rewrite String.eqb_refl.
  - destruct (String.eqb_spec (r_uid r) (r_uid row)) as [E | _];
      [| now apply IH].
    exfalso. apply Hnotin. rewrite E. now apply in_map.
Qed.

Lemma row_of_get_in t u r :
  get_in t u = Some r ->
  select_record u (data_records t) = Some (row_of r).
Proof.
  unfold get_in.
  destruct (select_record u (data_records t)) as [row |]; [| discriminate].
  intros H. injection H as <-. now destruct row.
Qed.

(** X9: in a store with one row per uid, [query] returns one record for
    each row that meets the filters, in row order, cut at the limit; each
    record carries its row unchanged. *)
Theorem query_returns_the_matching_rows (t : Tables)
  (category : option DataCategory) (status : option DataStatus)
  (path_prefix : option string) (limit : Z)
  (Hkeys : NoDup (map r_uid (data_records t))) :
  map row_of (query_in t category status path_prefix limit)
  = sql_limit limit
      (filter (query_condition category status path_prefix)
         (data_records t)).
Proof.
  unfold query_in. rewrite sql_limit_map.
  assert (Hsub : forall row,
             In row (sql_limit limit
                       (filter (query_condition category status path_prefix)
                          (data_records t))) ->
             In row (data_records t)).
  { intros row H. apply sql_limit_incl in H.
    now apply filter_In in H. }
  induction (sql_limit limit
               (filter (query_condition category status path_prefix)
                  (data_records t))) as [| row rows IH];
    [reflexivity |].
  cbn [map flat_map].
  pose proof (select_record_unique _ row Hkeys
                (Hsub row (or_introl eq_refl))) as Hrow.
  unfold get_in at 1 2. rewrite Hrow. cbn [app map].
  rewrite IH by (intros r Hr; apply Hsub; now right).
  f_equal. now destruct row.
Qed.

Lemma category_eqb_eq a b : category_eqb a b = true <-> a = b.
Proof.
  split; [| intros ->; apply String.eqb_refl].
  destruct a, b; cbn; intros H; try reflexivity; discriminate H.
Qed.

Lemma status_eqb_eq a b : status_eqb a b = true <-> a = b.
Proof.
  split; [| intros ->; apply String.eqb_refl].
  destruct a, b; cbn; intros H; try reflexivity; discriminate H.
Qed.

Lemma query_returns_the_matching_rows_witness :
  map row_of (query_in chain_tables (Some SOURCE) None (Some "B") (-1))
  = [plain_row "b" "b.json"].
Proof.
  rewrite (query_returns_the_matching_rows chain_tables (Some SOURCE) None
             (Some "B") (-1)).
  - reflexivity.
  - cbn. solve_NoDup.
Defined.

(** X10: [get_stale_derived] returns derived, stale records only (in a
    store with one row per uid), each as [get] would return it, and at
    most 1000 of them. *)
Theorem get_stale_derived_only (w : World)
  (Hkeys : NoDup (map r_uid (data_records (db w)))) :
  exists records,
    get_stale_derived w = (inr records, w)
    /\ length records <= 1000
    /\ forall r, In r records ->
                 category r = DERIVED /\ status r = STALE
                 /\ get_in (db w) (uid r) = Some r.
Proof.
  eexists. split; [reflexivity |].
  split.
  { pose proof (query_respects_limit (db w) (Some DERIVED) (Some STALE)
                  None 1000). lia. }
  intros r Hr.
  pose proof (query_returns_the_matching_rows (db w) (Some DERIVED)
                (Some STALE) None 1000 Hkeys) as Hrows.
  assert (Hin : In (row_of r)
                  (sql_limit 1000
                     (filter (query_condition (Some DERIVED) (Some STALE)
                                None) (data_records (db w)))))
    by (rewrite <- Hrows; now apply in_map).
  apply sql_limit_incl, filter_In in Hin as [Hrow Hcond].
  unfold query_condition in Hcond.
  apply andb_true_iff in Hcond as [Hcond _].
  apply andb_true_iff in Hcond as [Hc Hs].
  apply category_eqb_eq in Hc. apply status_eqb_eq in Hs.
  split; [exact Hc |]. split; [exact Hs |].
  unfold query_in in Hr. apply in_flat_map in Hr as (u & _ & Hu).
  destruct (get_in (db w) u) as [r0 |] eqn:Eg; [| destruct Hu].
  destruct Hu as [<- | []].
  pose proof (row_of_get_in _ _ _ Eg) as Hsel.
  unfold select_record in Hsel. apply find_some in Hsel as [_ Hsel].
  apply String.eqb_eq in Hsel. cbn in Hsel. now rewrite Hsel.
Qed.

Lemma get_stale_derived_only_witness :
  exists records,
    get_stale_derived (mkWorld quiet_env stale_tables 0 0 0)
    = (inr records, mkWorld quiet_env stale_tables 0 0 0)
    /\ map uid records = ["deri_bbbbbbbbbbbb"].
Proof.
  destruct (get_stale_derived_only (mkWorld quiet_env stale_tables 0 0 0))
    as (records & H1 & _).
  - cbn. solve_NoDup.
  - exists records. split; [exact H1 |].
    vm_compute in H1. injection H1 as <-. reflexivity.
Defined.

(** ** The path prefix of a query *)

Lemma sql_like_percent s : sql_like "%" s = true.
Proof.
  induction s as [| c s IH]; [reflexivity |].
  cbn in *. rewrite IH. reflexivity.
Qed.

Lemma upper_app s1 s2 :
  upper (String.append s1 s2) = String.append (upper s1) (upper s2).
Proof. induction s1 as [| c s1 IH]; cbn; [reflexivity | now rewrite IH]. Qed.

Lemma sql_like_literal a :
  forall a' q s,
    wildcard_free a = true ->
    upper a = upper a' ->
    sql_like (String.append a q) (String.append a' s) = sql_like q s.
Proof.
  induction a as [| c a IH]; intros [| d a'] q s Hfree Hup;
    cbn in Hup; try discriminate; [reflexivity |].
  injection Hup as Hc Hup. cbn [wildcard_free] in Hfree.
  apply andb_true_iff in Hfree as [Hfree Ha].
  apply andb_true_iff in Hfree as [Hp Hu].
  apply negb_true_iff in Hp, Hu.
  cbn [String.append sql_like]. rewrite Hp, Hu, Hc, Ascii.eqb_refl.
  cbn [orb andb]. now apply IH.
Qed.

(** X11: the [path_prefix] of [query] is matched with [LIKE]. For a
    prefix without [%] and [_] that is prefix matching blind to ASCII
    case: a path matches exactly when it begins with the prefix up to
    case. *)
Theorem path_prefix_matches_ignoring_case (prefix path : string)
  (Hfree : wildcard_free prefix = true) :
  sql_like (String.append prefix "%") path = true <->
  exists head rest,
    path = String.append head rest /\ upper head = upper prefix.
Proof.
  split.
  - revert path. induction prefix as [| c prefix IH]; intros path H.
    + exists "", path. split; reflexivity.
    + cbn [wildcard_free] in Hfree.
      apply andb_true_iff in Hfree as [Hfree Ha].
      apply andb_true_iff in Hfree as [Hp Hu].
      apply negb_true_iff in Hp, Hu.
      cbn [String.append sql_like] in H. rewrite Hp, Hu in H.
      destruct path as [| d path]; [discriminate |].
      cbn [orb] in H. apply andb_true_iff in H as [Hc H].
      apply Ascii.eqb_eq in Hc.
      destruct (IH Ha path H) as (head & rest & -> & Hup).
      exists (String d head), rest. split; [reflexivity |].
      cbn. now rewrite Hup, Hc.
  - intros (head & rest & -> & Hup).
    rewrite (sql_like_literal prefix head "%" rest Hfree (eq_sym Hup)).
    apply sql_like_percent.
Qed.

Lemma path_prefix_matches_ignoring_case_witness :
  sql_like "data/models%" "Data/Models/f22.glb" = true
  /\ sql_like "data/models%" "data/model" = false.
Proof.
  split; [| reflexivity].
  apply (path_prefix_matches_ignoring_case "data/models"
           "Data/Models/f22.glb"); [reflexivity |].
  exists "Data/Models", "/f22.glb". split; reflexivity.
Defined.

(** X12: an underscore in the prefix is a wildcard: a prefix [a_b] also
    selects the paths that have any other character where the underscore
    stands. *)
Theorem path_prefix_underscore_is_wildcard (a b rest : string) (c : ascii)
  (Ha : wildcard_free a = true) (Hb : wildcard_free b = true) :
  sql_like
    (String.append (String.append a (String underscore b)) "%")
    (String.append a (String c (String.append b rest)))
  = true.
Proof.
  assert (E : String.append (String.append a (String underscore b)) "%"
              = String.append a
                  (String underscore (String.append b "%"))).
  { clear. induction a as [| x a IH]; cbn [String.append];
      [reflexivity | f_equal; exact IH]. }
  rewrite E, (sql_like_literal a a _ _ Ha eq_refl).
  cbn [sql_like].
  assert (Hu : Ascii.eqb underscore percent_sign = false) by reflexivity.
  rewrite Hu, Ascii.eqb_refl. cbn [orb andb].
  rewrite (sql_like_literal b b "%" rest Hb eq_refl).
  apply sql_like_percent.
Qed.

Lemma path_prefix_underscore_is_wildcard_witness :
  sql_like "data/touch_masks%" "data/touch-masks/wing.png" = true.
Proof.
  apply (path_prefix_underscore_is_wildcard "data/touch" "masks"
           "/wing.png" "-"%char); reflexivity.
Defined.

(** ** Touch zones *)

Lemma upper_ascii_hash_iff c :
  Ascii.eqb (upper_ascii c) hash_sign = Ascii.eqb c hash_sign.
Proof.
  destruct c as [[] [] [] [] [] [] [] []]; reflexivity.
Qed.

(** SQL normalises with [UPPER(REPLACE(...))], Python with
    [upper().replace(...)]: the same key. *)
Lemma color_key_sql s : upper (remove_char hash_sign s) = color_key s.
Proof.
  unfold color_key. induction s as [| c s IH]; [reflexivity |].
  cbn [remove_char upper]. rewrite upper_ascii_hash_iff.
  destruct (Ascii.eqb c hash_sign); [exact IH |].
  cbn [upper]. now rewrite IH.
Qed.

(** X13: a touch zone that was added is found by its color, however the
    key is cased and whether or not it has a [#]: the lookup returns a
    zone of that color, and the added zone itself unless an older zone
    under another uid has the same color. Of the added uid there is one
    zone in the table, the new one. *)
Theorem add_touch_zone_then_lookup (w : World) (zone : TouchZone)
  (key : string)
  (Hfaults : NoFaults (env w))
  (Hkey : color_key key = color_key (color_hex zone)) :
  exists w' found,
    add_touch_zone zone w = (inr tt, w')
    /\ get_touch_zone_by_color key w' = (inr (Some found), w')
    /\ color_key (color_hex found) = color_key (color_hex zone)
    /\ ((forall z, In z (touch_zones (db w)) ->
                   tz_uid z <> tz_uid zone ->
                   color_key (color_hex z) <> color_key (color_hex zone))
        -> found = zone)
    /\ filter (fun z => String.eqb (tz_uid z) (tz_uid zone))
         (touch_zones (db w'))
       = [zone].
Proof.
  destruct w as [e t tk uu wr]. cbn [env db] in *.
  set (t' := set_touch_zones (insert_or_replace_touch_zone zone) t).
  assert (Hrun : add_touch_zone zone (mkWorld e t tk uu wr)
                 = (inr tt, mkWorld e t' tk uu (S (S wr)))).
  { unfold add_touch_zone. apply with_connection_run.
    erewrite bind_run by (now apply execute_run).
    unfold commit. now rewrite execute_run. }
  assert (Hzone : In zone (touch_zones t')).
  { cbn. unfold insert_or_replace_touch_zone.
    apply in_or_app. right. now left. }
  set (matches := fun z =>
         String.eqb (upper (remove_char hash_sign (color_hex z)))
           (remove_char hash_sign (upper key))).
  assert (Hmatch : matches zone = true).
  { unfold matches. rewrite color_key_sql. fold (color_key key).
    rewrite Hkey. apply String.eqb_refl. }
  destruct (find matches (touch_zones t')) as [found |] eqn:Efind.
  2:{ apply (find_none _ _ Efind) in Hzone. congruence. }
  exists (mkWorld e t' tk uu (S (S wr))), found.
  split; [exact Hrun |].
  split.
  { unfold get_touch_zone_by_color, query_db, get_touch_zone_by_color_in.
    cbn [db]. fold matches. now rewrite Efind. }
  pose proof (find_some _ _ Efind) as [Hfin Hfm].
  assert (Hcolor : color_key (color_hex found) = color_key (color_hex zone)).
  { unfold matches in Hfm. apply String.eqb_eq in Hfm.
    rewrite color_key_sql in Hfm. rewrite Hfm. exact Hkey. }
  split; [exact Hcolor |]. split.
  - intros Hothers. cbn in Hfin. unfold insert_or_replace_touch_zone in Hfin.
    apply in_app_iff in Hfin as [Hfin | [<- | []]]; [| reflexivity].
    apply filter_In in Hfin as [Hfin Hne].
    apply negb_true_iff, String.eqb_neq in Hne.
    now destruct (Hothers found Hfin Hne).
  - cbn [db]. unfold t'. cbn [set_touch_zones touch_zones].
    unfold insert_or_replace_touch_zone. rewrite filter_app.
    rewrite filter_drop_all.
    + cbn. now rewrite String.eqb_refl.
    + intros z Hz. apply filter_In in Hz as [_ Hz].
      now apply negb_true_iff in Hz.
Qed.

Lemma add_touch_zone_then_lookup_witness :
  exists w',
    add_touch_zone wing_zone (mkWorld quiet_env chain_tables 0 0 0)
    = (inr tt, w')
    /\ get_touch_zone_by_color "aabbcc" w' = (inr (Some wing_zone), w').
Proof.
  destruct (add_touch_zone_then_lookup
              (mkWorld quiet_env chain_tables 0 0 0) wing_zone "aabbcc")
    as (w' & found & H1 & H2 & _ & H4 & _).
  - intros n. reflexivity.
  - reflexivity.
  - exists w'. split; [exact H1 |].
    rewrite H2, H4; [reflexivity |]. intros z [].
Defined.

(** ** Exclusion and categories *)

Lemma replace_char_app a b s1 s2 :
  replace_char a b (String.append s1 s2)
  = String.append (replace_char a b s1) (replace_char a b s2).
Proof. induction s1 as [| c s1 IH]; cbn; [reflexivity | now rewrite IH]. Qed.

Lemma has_char_replace_char a b s :
  a <> b -> has_char a (replace_char a b s) = false.
Proof.
  intros Hne. induction s as [| c s IH]; [reflexivity |].
  cbn. rewrite IH, orb_false_r.
  destruct (Ascii.eqb_spec c a) as [-> | Hc].
  - apply Ascii.eqb_neq. congruence.
  - now apply Ascii.eqb_neq.
Qed.

Lemma replace_char_absent a b s :
  has_char a s = false -> replace_char a b s = s.
Proof.
  induction s as [| c s IH]; [reflexivity |].
  cbn. intros H. apply orb_false_iff in H as [Hc Hs].
  now rewrite Hc, IH.
Qed.

Lemma has_char_lstrip a c s :
  has_char a s = false -> has_char a (lstrip_char c s) = false.
Proof.
  induction s as [| d s IH]; [reflexivity |].
  intros H. cbn [lstrip_char].
  destruct (Ascii.eqb d c); [| exact H].
  cbn in H. apply orb_false_iff in H as [_ H]. now apply IH.
Qed.

Lemma has_char_rstrip a c s :
  has_char a s = false -> has_char a (rstrip_char c s) = false.
Proof.
  induction s as [| d s IH]; [reflexivity |].
  intros H. cbn in H. apply orb_false_iff in H as [Hd Hs].
  specialize (IH Hs). cbn [rstrip_char].
  destruct (rstrip_char c s) as [| x r].
  - destruct (Ascii.eqb d c); cbn; [reflexivity |].
    now rewrite Hd.
  - cbn [has_char]. cbn [has_char] in IH. now rewrite Hd, IH.
Qed.

Lemma prefix_append p s : String.prefix p (String.append p s) = true.
Proof.
  induction p as [| c p IH]; [now destruct s |].
  cbn. destruct (ascii_dec c c) as [_ | Hne]; [exact IH | now destruct Hne].
Qed.

(** X14: a configured exclusion folder, written with or without
    surrounding slashes and with either kind of slash, excludes the folder
    itself and every path below it, whichever slash the path is written
    with. *)
Theorem excluded_folder_and_below (config : Config) (ex rest : string)
  (Hin : In ex (exclude_folders config)) :
  let folder := strip_slash (replace_char backslash slash ex) in
  is_excluded config folder = true
  /\ is_excluded config (String.append folder (String slash rest)) = true
  /\ is_excluded config (String.append folder (String backslash rest))
     = true.
Proof.
  intros folder.
  assert (Hfree : has_char backslash folder = false).
  { unfold folder, strip_slash. apply has_char_rstrip, has_char_lstrip.
    apply has_char_replace_char. discriminate. }
  assert (Hfolder : replace_char backslash slash folder = folder)
    by now apply replace_char_absent.
  unfold is_excluded.
  repeat split; apply existsb_exists; exists ex; (split; [exact Hin |]);
    fold folder.
  - rewrite Hfolder, String.eqb_refl. reflexivity.
  - rewrite replace_char_app, Hfolder. cbn [replace_char].
    apply orb_true_iff. right. unfold startswith.
    change (String (if Ascii.eqb slash backslash then slash else slash)
              (replace_char backslash slash rest))
      with (String.append "/" (replace_char backslash slash rest)).
    assert (E : forall a b c,
               String.append a (String.append b c)
               = String.append (String.append a b) c).
    { clear. intros a b c. induction a as [| x a IH]; cbn;
        [reflexivity | now rewrite IH]. }
    rewrite E. apply prefix_append.
  - rewrite replace_char_app, Hfolder. cbn [replace_char].
    apply orb_true_iff. right. unfold startswith.
    change (String (if Ascii.eqb backslash backslash then slash
                    else backslash)
              (replace_char backslash slash rest))
      with (String.append "/" (replace_char backslash slash rest)).
    assert (E : forall a b c,
               String.append a (String.append b c)
               = String.append (String.append a b) c).
    { clear. intros a b c. induction a as [| x a IH]; cbn;
        [reflexivity | now rewrite IH]. }
    rewrite E. apply prefix_append.
Qed.

Lemma excluded_folder_and_below_witness :
  is_excluded DEFAULT_CONFIG "manager/backups" = true
  /\ is_excluded DEFAULT_CONFIG "manager/backups/snapshot_1/a.json" = true
  /\ is_excluded DEFAULT_CONFIG "manager/backupsold/a.json" = false.
Proof.
  destruct (excluded_folder_and_below DEFAULT_CONFIG "manager/backups"
              "snapshot_1/a.json") as (H1 & H2 & _).
  - cbn. auto.
  - split; [exact H1 |]. split; [exact H2 | reflexivity].
Defined.

(** X15: where the derived folder and the exports folder are the same, as
    in the default configuration, no file is ever categorised as
    [export]: the test for [derived] comes first and takes them all. *)
Theorem shadowed_exports_folder (config : Config) (p : FsEntry)
  (Hsame : derived_folder config = exports_folder config) :
  categorize_file config p <> EXPORT.
Proof.
  unfold categorize_file. cbv zeta. rewrite Hsame.
  repeat match goal with
         | |- context [if ?b then _ else _] => destruct b
         end; discriminate.
Qed.

Lemma shadowed_exports_folder_witness :
  categorize_file DEFAULT_CONFIG
    (mkFsEntry "data/exports/master_inventory_v2.json" false (Some 10%Z)
       None (VALID, []))
  = DERIVED
  /\ categorize_file DEFAULT_CONFIG
       (mkFsEntry "data/exports/master_inventory_v2.json" false (Some 10%Z)
          None (VALID, []))
     <> EXPORT.
Proof.
  split; [reflexivity |].
  apply shadowed_exports_folder. reflexivity.
Defined.

(** ** More on one entry of a scan *)

(** X16: a tracked file whose digest and size are those of its record is
    counted as unchanged and costs nothing: no write, no clock reading, no
    audit entry - the process is exactly as before. *)
Theorem scan_entry_unchanged (config : Config) (p : FsEntry)
  (stats : Stats) (w : World) (existing : DataRecord)
  (Hstat : e_st_size p = Some (size existing))
  (Htracked : get_by_path_in (db w) (e_rel p) = Some existing)
  (Hdigest : hash_file config p = Some (hash_sha256 existing)) :
  scan_entry config p stats w = (inr (incr_unchanged stats), w).
Proof.
  unfold scan_entry. apply try_except_run.
  unfold stat. rewrite Hstat.
  erewrite bind_run by reflexivity.
  erewrite bind_run by (unfold get_by_path, query_db; rewrite Htracked;
                        reflexivity).
  destruct (e_validation p) as [vs vm].
  rewrite Hdigest. cbn [hash_differs].
  rewrite String.eqb_refl, Z.eqb_refl. reflexivity.
Qed.

Lemma scan_entry_unchanged_witness :
  scan_entry DEFAULT_CONFIG
    (mkFsEntry "a.json" false (Some 10%Z) (Some "e3b0c442") (VALID, []))
    zero_stats (mkWorld quiet_env chain_tables 0 0 0)
  = (inr (mkStats 0 0 1 0 0), mkWorld quiet_env chain_tables 0 0 0).
Proof.
  apply (scan_entry_unchanged DEFAULT_CONFIG
           (mkFsEntry "a.json" false (Some 10%Z) (Some "e3b0c442")
              (VALID, []))
           zero_stats (mkWorld quiet_env chain_tables 0 0 0)
           chain_record_a); reflexivity.
Defined.

(** X17: a file whose [stat] fails is counted as an error and nothing
    else happens: the scan goes on with the process as it was. *)
Theorem scan_entry_stat_error (config : Config) (p : FsEntry)
  (stats : Stats) (w : World)
  (Hstat : e_st_size p = None) :
  scan_entry config p stats w = (inr (incr_errors stats), w).
Proof.
  unfold scan_entry, try_except, bind, stat. now rewrite Hstat.
Qed.

Lemma scan_entry_stat_error_witness :
  scan_entry DEFAULT_CONFIG
    (mkFsEntry "a.json" false None None (VALID, []))
    zero_stats (mkWorld quiet_env chain_tables 0 0 0)
  = (inr (mkStats 0 0 0 0 1), mkWorld quiet_env chain_tables 0 0 0).
Proof.
  apply scan_entry_stat_error. reflexivity.
Defined.

(** X18: when the first child of a changed, tracked file lies on a
    lineage cycle, the pass counts the file as an error, not as updated:
    the rewritten record is already committed, with its new version, but
    no child at all has been marked stale and only the [register] entry
    is audited. *)
Theorem scan_entry_cycle_counts_error (config : Config) (p : FsEntry)
  (stats : Stats) (w : World) (existing : DataRecord) (sz : Z)
  (c : string) (others : list string)
  (Hfaults : NoFaults (env w))
  (Hstat : e_st_size p = Some sz)
  (Htracked : get_by_path_in (db w) (e_rel p) = Some existing)
  (Hchanged :
     hash_differs (hash_sha256 existing) (hash_file config p) = true
     \/ size existing <> sz)
  (Hchildren : child_uids existing = c :: others)
  (Hcycle : reaches (lineage (db w)) c c) :
  exists w',
    scan_entry config p stats w = (inr (incr_errors stats), w')
    /\ data_records (db w')
       = insert_or_replace_record
           (row_of (rescanned config (env w) (ticks w) p sz existing))
           (data_records (db w))
    /\ length (audit_log (db w')) = S (length (audit_log (db w))).
Proof.
  destruct w as [e t tk uu wr]. cbn [env db ticks] in *.
  destruct (get_by_path_in_some _ _ _ Htracked) as (_ & _ & Hpar & _).
  assert (Hcycle1 : forall tk1 r,
             uid r = uid existing ->
             parent_uids r = parent_uids existing ->
             reaches (lineage (registered e tk1 r t)) c c).
  { intros tk1 r Hu Hp.
    apply reaches_same_edges with (lineage t); [| exact Hcycle].
    intros k. symmetry. cbn [registered lineage]. rewrite Hu, Hp, Hpar.
    apply register_read_back_edges. }
  assert (Hcond : hash_differs (hash_sha256 existing) (hash_file config p)
                  || negb (Z.eqb (size existing) sz) = true).
  { apply orb_true_iff. destruct Hchanged as [Hh | Hs]; [now left |].
    right. apply negb_true_iff. now apply Z.eqb_neq. }
  unfold rescanned, scan_entry.
  destruct (e_validation p) as [vs vm]. cbn [fst snd].
  eexists. split.
  - erewrite try_except_raise; [reflexivity |].
    unfold stat. rewrite Hstat.
    erewrite bind_run by reflexivity.
    erewrite bind_run by (unfold get_by_path, query_db; cbn [db];
                          rewrite Htracked; reflexivity).
    cbv beta iota. rewrite Hcond.
    erewrite bind_run by reflexivity.
    cbn [env db ticks uuids writes].
    erewrite bind_run by apply note_validation_run.
    erewrite bind_run by (now apply register_run).
    cbn [child_uids]. rewrite Hchildren. cbn [for_each].
    apply bind_raise. apply bind_raise.
    apply mark_stale_raise; [assumption |].
    apply _get_descendants_cycle. now apply Hcycle1.
  - cbn [ret snd db]. split; [reflexivity |].
    cbn [registered audit_log]. unfold insert_audit.
    rewrite length_app. cbn. lia.
Qed.

Lemma scan_entry_cycle_counts_error_witness :
  exists w',
    scan_entry DEFAULT_CONFIG edited_file zero_stats
      (mkWorld quiet_env cyclic_children_tables 0 0 0)
    = (inr (mkStats 0 0 0 0 1), w')
    /\ map (fun r => (r_uid r, r_status r, r_version r))
         (data_records (db w'))
       = [("b", VALID, 1%Z); ("c", VALID, 1%Z); ("a", VALID, 2%Z)].
Proof.
  destruct (scan_entry_cycle_counts_error DEFAULT_CONFIG edited_file
              zero_stats (mkWorld quiet_env cyclic_children_tables 0 0 0)
              cyclic_children_record 12%Z "b" ["c"])
    as (w' & H1 & _).
  - intros n. reflexivity.
  - reflexivity.
  - reflexivity.
  - left. reflexivity.
  - reflexivity.
  - apply reaches_below with "c"; [cbn; auto |].
    apply reaches_child. cbn. auto.
  - exists w'. split; [exact H1 |].
    vm_compute in H1. injection H1 as <-. reflexivity.
Defined.

(** X19: a changed file that validates without messages gets the
    validation status, but its metadata is written back as it was read:
    a [validation] entry left by an earlier failure stays in place. *)
Theorem clean_validation_keeps_metadata (config : Config) (p : FsEntry)
  (stats : Stats) (w : World) (existing : DataRecord) (sz : Z)
  (rank : string -> nat)
  (Hfaults : NoFaults (env w))
  (Hstat : e_st_size p = Some sz)
  (Htracked : get_by_path_in (db w) (e_rel p) = Some existing)
  (Hchanged :
     hash_differs (hash_sha256 existing) (hash_file config p) = true
     \/ size existing <> sz)
  (Hclean : snd (e_validation p) = [])
  (Hrank : forall q c,
      q = uid existing \/ reaches (lineage (db w)) (uid existing) q ->
      In c (select_children q (lineage (db w))) -> rank c < rank q)
  (Hdepth : rank (uid existing) <= recursion_limit (env w)) :
  exists w' row,
    scan_entry config p stats w = (inr (incr_updated stats), w')
    /\ select_record (uid existing) (data_records (db w')) = Some row
    /\ r_status row = fst (e_validation p)
    /\ r_metadata row = metadata existing.
Proof.
  assert (Hcond : hash_differs (hash_sha256 existing) (hash_file config p)
                  || negb (Z.eqb (size existing) sz) = true).
  { apply orb_true_iff. destruct Hchanged as [Hh | Hs]; [now left |].
    right. apply negb_true_iff. now apply Z.eqb_neq. }
  destruct (scan_entry_changed_rows config p stats sz existing rank w
              Hfaults Hstat Htracked Hcond Hrank Hdepth)
    as (w' & Hrun & Hrow & _).
  exists w', (row_of (rescanned config (env w) (ticks w) p sz existing)).
  repeat split; try assumption.
  cbn. now rewrite Hclean.
Qed.

Lemma clean_validation_keeps_metadata_witness :
  exists w',
    scan_entry DEFAULT_CONFIG repaired_file zero_stats
      (mkWorld quiet_env was_invalid_tables 0 0 0)
    = (inr (mkStats 0 1 0 0 0), w')
    /\ map (fun r => (r_status r, r_metadata r)) (data_records (db w'))
       = [(VALID, metadata was_invalid_record)].
Proof.
  destruct (clean_validation_keeps_metadata DEFAULT_CONFIG repaired_file
              zero_stats (mkWorld quiet_env was_invalid_tables 0 0 0)
              was_invalid_record 42%Z (fun _ => 0))
    as (w' & row & H1 & _).
  - intros n. reflexivity.
  - reflexivity.
  - reflexivity.
  - left. reflexivity.
  - reflexivity.
  - intros q c _ [].
  - cbn. lia.
  - exists w'. split; [exact H1 |].
    vm_compute in H1. injection H1 as <-. reflexivity.
Defined.

(** ** The counters of a scan *)

Lemma returns_only_ret {A} (P : A -> Prop) (a : A) :
  P a -> returns_only P (ret a).
Proof. intros H w a' w' E. injection E as <- _. exact H. Qed.

Lemma returns_only_bind {A B} (P : B -> Prop) (c : M A) (k : A -> M B) :
  (forall a, returns_only P (k a)) -> returns_only P (bind c k).
Proof.
  intros H w b w' E. unfold bind in E.
  destruct (c w) as [[e | a] w1]; [discriminate |].
  exact (H a w1 b w' E).
Qed.

Lemma returns_only_try_except {A} (P : A -> Prop) (body : M A)
  (handler : Exn -> M A) :
  returns_only P body -> (forall e, returns_only P (handler e)) ->
  returns_only P (try_except body handler).
Proof.
  intros Hb Hh w a w' E. unfold try_except in E.
  destruct (body w) as [[e | a1] w1] eqn:Eb.
  - exact (Hh e w1 a w' E).
  - injection E as <- <-. exact (Hb w a1 w1 Eb).
Qed.

Lemma scan_entry_counts_one config p stats :
  returns_only
    (fun stats' => files_counted stats' = S (files_counted stats)
                   /\ removed stats' = removed stats)
    (scan_entry config p stats).
Proof.
  assert (Hret : forall s',
             In s' [incr_added stats; incr_updated stats;
                    incr_unchanged stats; incr_errors stats] ->
             returns_only
               (fun stats' => files_counted stats' = S (files_counted stats)
                              /\ removed stats' = removed stats)
               (ret s')).
  { intros s' Hs'. apply returns_only_ret.
    destruct stats as [a u n r e]. unfold files_counted.
    cbn in Hs'. decompose [or] Hs'; subst; cbn; try contradiction; lia. }
  unfold scan_entry. apply returns_only_try_except.
  - apply returns_only_bind. intros st_size.
    apply returns_only_bind. intros existing.
    destruct (e_validation p) as [vs vm].
    destruct existing as [existing |].
    + match goal with
      | |- context [if ?b then _ else _] => destruct b
      end.
      * repeat (apply returns_only_bind; intros ?).
        apply Hret. cbn. auto.
      * apply Hret. cbn. auto.
    + repeat (apply returns_only_bind; intros ?).
      apply Hret. cbn. auto.
  - intros e. apply Hret. cbn. auto.
Qed.

Lemma scan_entries_count config files :
  forall stats,
    returns_only
      (fun stats' =>
         files_counted stats' = length files + files_counted stats
         /\ removed stats' = removed stats)
      (for_each_acc files (scan_entry config) stats).
Proof.
  induction files as [| p files IH]; intros stats w s' w' E.
  - cbn in E. injection E as <- _. split; reflexivity.
  - cbn [for_each_acc] in E. unfold bind in E.
    destruct (scan_entry config p stats w) as [[e | s1] w1] eqn:E1;
      [discriminate |].
    destruct (scan_entry_counts_one config p stats w s1 w1 E1) as [Hc Hr].
    destruct (IH s1 w1 s' w' E) as [Hc' Hr'].
    cbn [length]. split; lia.
Qed.

Lemma removals_count seen_paths records :
  forall stats,
    returns_only
      (fun stats' =>
         files_counted stats' = files_counted stats
         /\ removed stats' <= length records + removed stats)
      (for_each_acc records (fun record stats =>
         if seen seen_paths (path record) then ret stats
         else delete (uid record) ;; ret (incr_removed stats)) stats).
Proof.
  induction records as [| r records IH]; intros stats w s' w' E.
  - cbn in E. injection E as <- _. split; [reflexivity | cbn; lia].
  - cbn [for_each_acc] in E. unfold bind at 1 in E.
    match type of E with
    | context [match ?c w with _ => _ end] =>
        destruct (c w) as [[e | s1] w1] eqn:E1; [discriminate |];
        assert (H1 : files_counted s1 = files_counted stats
                     /\ removed s1 <= S (removed stats))
    end.
    { destruct (seen seen_paths (path r)).
      - injection E1 as <- _. split; [reflexivity | lia].
      - unfold bind in E1.
        destruct (delete (uid r) w) as [[e | []] w2]; [discriminate |].
        injection E1 as <- _. destruct stats; cbn. split; [reflexivity | lia]. }
    destruct (IH s1 w1 s' w' E) as [Hc' Hr'].
    cbn [length]. split; lia.
Qed.

Lemma query_all_in_length t limit : length (query_all_in t limit) <= limit.
Proof.
  rewrite <- (length_map uid), query_all_in_uids.
  apply firstn_le_length.
Qed.

(** X20: a scan that meets no storage fault returns, and its counters
    account for every file it walked: each one is counted once, as added,
    updated, unchanged or error - a failure on one file does not end the
    pass. A pass removes at most 100000 records. *)
Theorem scan_counts_every_file (config : Config) (root : list FsEntry)
  (w : World)
  (Hfaults : NoFaults (env w)) :
  exists stats w',
    scan config root w = (inr stats, w')
    /\ files_counted stats = length (walk_all config root)
    /\ removed stats <= scan_query_limit.
Proof.
  destruct (scan_returns config root w Hfaults) as (stats & w' & E).
  exists stats, w'. split; [exact E |].
  unfold scan in E. cbv zeta in E. unfold bind at 1 in E.
  destruct (for_each_acc (walk_all config root) (scan_entry config)
              zero_stats w) as [[e | s1] w1] eqn:E1; [discriminate |].
  destruct (scan_entries_count _ _ _ _ _ _ E1) as [Hc1 Hr1].
  unfold bind at 1, query_all, query_db in E.
  destruct (removals_count _ _ _ _ _ _ E) as [Hc2 Hr2].
  pose proof (query_all_in_length (db w1) scan_query_limit) as Hlen.
  cbn in Hc1, Hr1. split; lia.
Qed.

Lemma scan_counts_every_file_witness :
  exists stats w',
    scan DEFAULT_CONFIG
      [edited_file; mkFsEntry "new.json" false None None (VALID, []);
       mkFsEntry "node_modules/x.js" false (Some 1%Z) None (VALID, [])]
      (mkWorld quiet_env chain_tables 0 0 0)
    = (inr stats, w')
    /\ files_counted stats = 2.
Proof.
  destruct (scan_counts_every_file DEFAULT_CONFIG
              [edited_file; mkFsEntry "new.json" false None None (VALID, []);
               mkFsEntry "node_modules/x.js" false (Some 1%Z) None
                 (VALID, [])]
              (mkWorld quiet_env chain_tables 0 0 0))
    as (stats & w' & E & Hc & _).
  - intros n. reflexivity.
  - exists stats, w'. split; [exact E | exact Hc].
Defined.
